(** * golnk: the byte, section and string decoding layer (bytes.go)

    A shallow embedding of [src/bytes.go] and of the parts of the Go runtime
    and standard library it calls, followed by the properties of the code.

    Conventions of the embedding.
    - Go's fixed-width integers are values of [Z]; every operation that can
      leave the range of its type is followed by the wrap-around of that
      type ([uint16], [uint64], [int] ...).  [int] is the 64-bit signed
      integer of the 64-bit platforms.
    - A byte is a [byte] of the standard library; a [[]byte] is a [list byte]
      whose capacity equals its length.  A Go [string] is the list of its
      bytes.
    - A function that can panic returns an [outcome]; Go's multiple return
      values are tuples and a Go [error] is [option string], the string
      being what [Error()] returns.
    - An [io.Reader] is the list of the bytes it will still yield before it
      reports the end of the input; reading passes the remaining list on.
    - [make] panics as the runtime does on a length that is negative as an
      [int] or above the runtime's allocation limit.  Below that limit the
      runtime either finds the memory or stops the whole program with the
      fatal error "out of memory", which no [recover] catches; which of the
      two happens is not decided by the program, so the functions that
      allocate take an [allocator], the answer of the runtime to a request
      of a given size.  A request of fewer than [2^16] bytes is taken to be
      granted. *)

From Stdlib Require Import ZArith Lia Bool String Ascii List.
From Stdlib Require Import Strings.Byte DecimalString HexString.
Import ListNotations.

Open Scope Z_scope.

(* ------------------------------------------------------------------ *)
(** ** Go primitives *)

Module Go.

(** Wrap-around of the unsigned and signed [w]-bit integer types. *)
Definition wrapU (w : Z) (z : Z) : Z := z mod 2 ^ w.
Definition wrapS (w : Z) (z : Z) : Z := (z + 2 ^ (w - 1)) mod 2 ^ w - 2 ^ (w - 1).

Definition uint8 : Z -> Z := wrapU 8.
Definition uint16 : Z -> Z := wrapU 16.
Definition uint32 : Z -> Z := wrapU 32.
Definition uint64 : Z -> Z := wrapU 64.
Definition int32 : Z -> Z := wrapS 32.
Definition int : Z -> Z := wrapS 64.

(** The value of a byte, and the conversion [byte(v)], which keeps the low
    eight bits. *)
Definition byteZ (b : byte) : Z := Z.of_N (Byte.to_N b).

Definition toByte (z : Z) : byte :=
  match Byte.of_N (Z.to_N (z mod 256)) with
  | Some b => b
  | None => x00
  end.

(** [len(b)] as an [int]. *)
Definition len {A : Type} (l : list A) : Z := Z.of_nat (length l).

(** What a panic carries: the string of an explicit [panic(...)], or one of
    the run-time errors of slicing, indexing and [make]. *)
Inductive panic : Type :=
  | PanicString (msg : string)
  | SliceBoundsOutOfRange
  | IndexOutOfRange
  | MakeSliceLenOutOfRange.

(** The fatal errors of the runtime: they stop the program and cannot be
    recovered from. *)
Inductive fatal : Type :=
  | OutOfMemory.

Inductive outcome (A : Type) : Type :=
  | Returns (a : A)
  | Panics (p : panic)
  | Aborts (f : fatal).

Arguments Returns {A} a.
Arguments Panics {A} p.
Arguments Aborts {A} f.

Definition bind {A B : Type} (m : outcome A) (k : A -> outcome B) : outcome B :=
  match m with
  | Returns a => k a
  | Panics p => Panics p
  | Aborts f => Aborts f
  end.

(** The verbs [%d] and [%v] of package fmt on an integer: decimal digits, with
    a leading minus sign for a negative number. *)
Definition fmt_d (z : Z) : string := NilZero.string_of_int (Z.to_int z).

(** Slice expressions [b[lo:]], [b[:hi]] and [b[lo:hi]]: a run-time panic
    unless [0 <= lo <= hi <= len(b)]. *)
Definition slice {A : Type} (b : list A) (lo hi : Z) : outcome (list A) :=
  if (0 <=? lo) && (lo <=? hi) && (hi <=? len b)
  then Returns (firstn (Z.to_nat (hi - lo)) (skipn (Z.to_nat lo) b))
  else Panics SliceBoundsOutOfRange.

Definition sliceFrom {A : Type} (b : list A) (lo : Z) : outcome (list A) :=
  slice b lo (len b).

Definition sliceTo {A : Type} (b : list A) (hi : Z) : outcome (list A) :=
  slice b 0 hi.

(** The index expression [b[i]]. *)
Definition index {A : Type} (b : list A) (i : Z) : outcome A :=
  if (0 <=? i) && (i <? len b)
  then match nth_error b (Z.to_nat i) with
       | Some x => Returns x
       | None => Panics IndexOutOfRange
       end
  else Panics IndexOutOfRange.

(** [binary.LittleEndian]: the value of a sequence of bytes, least
    significant first, and the [n] low bytes of a value. *)
Fixpoint leDecode (bs : list byte) : Z :=
  match bs with
  | [] => 0
  | b :: bs' => byteZ b + 256 * leDecode bs'
  end.

Fixpoint leEncode (n : nat) (v : Z) : list byte :=
  match n with
  | O => []
  | S n' => toByte v :: leEncode n' (v / 256)
  end.

End Go.

Import Go.

Notation "x <- m ;; k" := (bind m (fun x => k))
  (at level 61, m at next level, right associativity).

(* ------------------------------------------------------------------ *)
(** ** bytes.go: masks and the scalar codec *)

(** [byteMaskuint16(b uint16, n int) uint16] *)
Definition byteMaskuint16 (b : Z) (n : Z) : outcome Z :=
  if (n <? 0) || (2 <? n)
  then Panics (PanicString ("invalid byte mask, got " ++ fmt_d n))
  else
    let mask := uint16 (Z.shiftl (uint16 0x000000FF) (uint16 (int (n * 8)))) in
    Returns (Z.shiftr (Z.land b mask) (uint16 (int (n * 8)))).

(** [bitMaskuint32(b uint32, n int) bool] *)
Definition bitMaskuint32 (b : Z) (n : Z) : outcome bool :=
  if (n <? 0) || (31 <? n)
  then Panics (PanicString ("invalid bit number, got " ++ fmt_d n))
  else Returns (Z.land (Z.shiftr b (uint64 n)) 1 =? 1).

(** [uint16Little], [uint32Little], [uint64Little]: the panic on a short
    input, then [binary.LittleEndian.UintN], which reads the first bytes. *)
Definition uint16Little (b : list byte) : outcome Z :=
  if len b <? 2
  then Panics (PanicString ("input smaller than two bytes - got " ++ fmt_d (len b)))
  else Returns (leDecode (firstn 2 b)).

Definition uint32Little (b : list byte) : outcome Z :=
  if len b <? 4
  then Panics (PanicString ("input smaller than four bytes - got " ++ fmt_d (len b)))
  else Returns (leDecode (firstn 4 b)).

Definition uint64Little (b : list byte) : outcome Z :=
  if len b <? 8
  then Panics (PanicString ("input smaller than eight bytes - got " ++ fmt_d (len b)))
  else Returns (leDecode (firstn 8 b)).

(** [uint16Byte], [uint32Byte], [uint64Byte]: [binary.Write] of a fixed-size
    unsigned integer into a fresh [bytes.Buffer] returns no error, so the
    [panic(err)] branch is never taken and the result is the buffer's
    content, the little-endian bytes of the value. *)
Definition uint16Byte (u : Z) : list byte := leEncode 2 u.
Definition uint32Byte (u : Z) : list byte := leEncode 4 u.
Definition uint64Byte (u : Z) : list byte := leEncode 8 u.

(** [toInt32(h, l uint8) int32] *)
Definition toInt32 (h l : byte) : Z :=
  Z.lor (int32 (Z.shiftl (int32 (byteZ l)) 8)) (int32 (byteZ h)).

(* ------------------------------------------------------------------ *)
(** ** bytes.go: the bounded slice reader *)

(** [ReadBytes(b []byte, offset, num int) (out []byte, n int)].  The sum
    [offset+num] is an [int] and wraps around. *)
Definition ReadBytes (b : list byte) (offset num : Z) : outcome (list byte * Z) :=
  if len b <=? offset then Returns ([], 0)
  else if len b <=? int (offset + num) then
    s <- sliceFrom b offset ;; Returns (s, len s)
  else
    s <- slice b offset (int (offset + num)) ;; Returns (s, num).

(* ------------------------------------------------------------------ *)
(** ** Readers: io.ReadFull, binary.Read, make *)

Definition Reader : Type := list byte.

(** A Go [error]: [None] is [nil], [Some msg] an error whose [Error()] is
    [msg]. *)
Definition error : Type := option string.

Definition io_EOF : string := "EOF".
Definition io_ErrUnexpectedEOF : string := "unexpected EOF".

Inductive readResult : Type :=
  | ReadOk (bs : list byte)
  | ReadErr (msg : string).

(** [io.ReadFull(r, buf)] with [len(buf) = n]: no byte is asked for when
    [n] is zero; at the end of the input the error is [io.EOF]; when the
    input ends before [n] bytes it is [io.ErrUnexpectedEOF] and the input
    has been drained. *)
Definition ReadFull (r : Reader) (n : Z) : readResult * Reader :=
  if n <=? 0 then (ReadOk [], r)
  else if len r =? 0 then (ReadErr io_EOF, r)
  else if len r <? n then (ReadErr io_ErrUnexpectedEOF, [])
  else (ReadOk (firstn (Z.to_nat n) r), skipn (Z.to_nat n) r).

(** [binary.Read(r, binary.LittleEndian, data)] for a [data] of [n] bytes
    (a pointer to an unsigned integer or to a byte slice): it reads the [n]
    bytes with [io.ReadFull] and returns its error. *)
Definition binary_Read (r : Reader) (n : Z) : readResult * Reader := ReadFull r n.

(** The largest allocation of the runtime on 64-bit Linux ([maxAlloc], with
    48 bits of heap addresses). *)
Definition maxAlloc : Z := 2 ^ 48.

(** The answer of the runtime to a request for [n] bytes of heap: [true]
    when it finds the memory, [false] when it has none left. *)
Definition allocator : Type := Z -> bool.

(** The runtime with memory for every request, and the runtime with [limit]
    bytes to give. *)
Definition unlimited : allocator := fun _ => true.
Definition limited (limit : Z) : allocator := fun n => n <=? limit.

(** Requests below this size are taken to be granted: every length a
    [uint16] can hold is below it. *)
Definition smallRequest : Z := 2 ^ 16.

(** Whether a request for [n] bytes is granted. *)
Definition granted (alloc : allocator) (n : Z) : bool :=
  (n <? smallRequest) || alloc n.

(** [make([]byte, n)] for an [n] of an unsigned type: the runtime converts
    the length to [int] and panics when it is negative or above [maxAlloc];
    otherwise it asks for the memory, and either the slice holds [n] zero
    bytes or the program stops with the fatal error "out of memory". *)
Definition make (alloc : allocator) (n : Z) : outcome (list byte) :=
  if (int n <? 0) || (maxAlloc <? int n)
  then Panics MakeSliceLenOutOfRange
  else if granted alloc n
  then Returns (repeat x00 (Z.to_nat n))
  else Aborts OutOfMemory.

(* ------------------------------------------------------------------ *)
(** ** bytes.go: the section framer *)

(** What [readSection] returns: [(data, nr, size, err)]; a [nil] reader is
    [None]. *)
Definition section : Type := (list byte * option Reader * Z * error)%type.

Definition errReadSize (sSize : Z) (e : string) : string :=
  "golnk.readSection: read size " ++ fmt_d sSize ++ " bytes - " ++ e.

Definition errInvalidSSize (sSize : Z) : string :=
  "golnk.readSection: invalid sSize - got " ++ fmt_d sSize.

Definition errComputedSize (computedSize maxSize : Z) : string :=
  "golnk.readSection: invalid computed size got " ++ fmt_d computedSize
  ++ "; expected a size < " ++ fmt_d maxSize.

Definition errReadSection (n : Z) (e : string) : string :=
  "golnk.readSection: read section " ++ fmt_d n ++ " bytes - " ++ e.

(** The [switch sSize]: either the early return with its error, or
    [sectionSize] and the bytes put at the start of [data]. *)
Definition readSectionSize (r : Reader) (sSize : Z)
  : (string + Z * list byte) * Reader :=
  match sSize with
  | 2 =>
      match binary_Read r 2 with
      | (ReadErr e, r') => (inl (errReadSize sSize e), r')
      | (ReadOk bs, r') =>
          let size16 := leDecode bs in (inr (uint64 size16, uint16Byte size16), r')
      end
  | 4 =>
      match binary_Read r 4 with
      | (ReadErr e, r') => (inl (errReadSize sSize e), r')
      | (ReadOk bs, r') =>
          let size32 := leDecode bs in (inr (uint64 size32, uint32Byte size32), r')
      end
  | 8 =>
      match binary_Read r 8 with
      | (ReadErr e, r') => (inl (errReadSize sSize e), r')
      | (ReadOk bs, r') =>
          let sectionSize := leDecode bs in (inr (sectionSize, uint64Byte sectionSize), r')
      end
  | _ => (inl (errInvalidSSize sSize), r)
  end.

(** [computedSize := sectionSize - uint64(sSize)], an unsigned 64-bit
    subtraction. *)
Definition computedSize (sectionSize sSize : Z) : Z :=
  uint64 (sectionSize - uint64 sSize).

(** [readSection(r io.Reader, sSize int, maxSize uint64)
      (data []byte, nr io.Reader, size int, err error)],
    with the reader as it is left. *)
Definition readSection (alloc : allocator) (r : Reader) (sSize maxSize : Z)
  : outcome section * Reader :=
  match readSectionSize r sSize with
  | (inl msg, r') => (Returns ([], None, 0, Some msg), r')
  | (inr (sectionSize, data), r') =>
      let computed := computedSize sectionSize sSize in
      if maxSize <? computed
      then (Returns (data, None, 0, Some (errComputedSize computed maxSize)), r')
      else
        match make alloc computed with
        | Panics p => (Panics p, r')
        | Aborts f => (Aborts f, r')
        | Returns tempData =>
            match binary_Read r' (len tempData) with
            | (ReadErr e, r'') =>
                (Returns (data, None, 0,
                          Some (errReadSection (computedSize sectionSize sSize) e)), r'')
            | (ReadOk tempData', r'') =>
                (Returns (data ++ tempData', Some tempData', int sectionSize, None), r'')
            end
        end
  end.

(* ------------------------------------------------------------------ *)
(** ** bytes.go: the string decoders *)

(** [bytes.IndexByte(b, c)]: the index of the first [c] in [b], or [-1]. *)
Fixpoint IndexByte (b : list byte) (c : byte) : Z :=
  match b with
  | [] => -1
  | x :: b' =>
      if Byte.eqb x c then 0
      else let i := IndexByte b' c in if i =? -1 then -1 else i + 1
  end.

(** [readString(data []byte) string] *)
Definition readString (data : list byte) : outcome (list byte) :=
  let i := IndexByte data x00 in
  let i := if i =? -1 then len data else i in
  sliceTo data i.

(** *** Package unicode/utf8 and the conversion [string(runes)] *)

Module utf8.

Definition RuneError : Z := 0xFFFD.
Definition MaxRune : Z := 0x10FFFF.

Definition locb : Z := 0x80.
Definition hicb : Z := 0xBF.

(** The table [first]: information about the first byte of an encoding.
    [0xF0] marks ASCII, [0xF1] an illegal first byte; otherwise the low
    three bits give the size and the high four the index into
    [acceptRanges]. *)
Definition first (p0 : Z) : Z :=
  if p0 <? 0x80 then 0xF0
  else if p0 <? 0xC2 then 0xF1
  else if p0 <? 0xE0 then 0x02
  else if p0 =? 0xE0 then 0x13
  else if p0 <? 0xED then 0x03
  else if p0 =? 0xED then 0x23
  else if p0 <? 0xF0 then 0x03
  else if p0 =? 0xF0 then 0x34
  else if p0 <? 0xF4 then 0x04
  else if p0 =? 0xF4 then 0x44
  else 0xF1.

(** The table [acceptRanges]: the range of the second byte. *)
Definition acceptRanges (i : Z) : Z * Z :=
  match i with
  | 1 => (0xA0, hicb)
  | 2 => (locb, 0x9F)
  | 3 => (0x90, hicb)
  | 4 => (locb, 0x8F)
  | _ => (locb, hicb)
  end.

(** [utf8.DecodeRune(p []byte) (rune, int)] *)
Definition DecodeRune (p : list byte) : Z * Z :=
  match p with
  | [] => (RuneError, 0)
  | c0 :: p1 =>
      let p0 := byteZ c0 in
      let x := first p0 in
      if 0xF0 <=? x then ((if x =? 0xF0 then p0 else RuneError), 1)
      else
        let sz := Z.land x 7 in
        let (lo, hi) := acceptRanges (Z.shiftr x 4) in
        if len p <? sz then (RuneError, 1)
        else
          match p1 with
          | [] => (RuneError, 1)
          | c1 :: p2 =>
              let b1 := byteZ c1 in
              if (b1 <? lo) || (hi <? b1) then (RuneError, 1)
              else if sz <=? 2
              then (Z.lor (Z.shiftl (Z.land p0 0x1F) 6) (Z.land b1 0x3F), 2)
              else
                match p2 with
                | [] => (RuneError, 1)
                | c2 :: p3 =>
                    let b2 := byteZ c2 in
                    if (b2 <? locb) || (hicb <? b2) then (RuneError, 1)
                    else if sz <=? 3
                    then (Z.lor (Z.lor (Z.shiftl (Z.land p0 0x0F) 12)
                                       (Z.shiftl (Z.land b1 0x3F) 6))
                                (Z.land b2 0x3F), 3)
                    else
                      match p3 with
                      | [] => (RuneError, 1)
                      | c3 :: _ =>
                          let b3 := byteZ c3 in
                          if (b3 <? locb) || (hicb <? b3) then (RuneError, 1)
                          else (Z.lor (Z.lor (Z.lor (Z.shiftl (Z.land p0 0x07) 18)
                                                    (Z.shiftl (Z.land b1 0x3F) 12))
                                             (Z.shiftl (Z.land b2 0x3F) 6))
                                      (Z.land b3 0x3F), 4)
                      end
                end
          end
  end.

(** The runtime's [encoderune]: the UTF-8 bytes of a rune; a surrogate or a
    value above [MaxRune] is encoded as [RuneError]. *)
Definition encoderune (r : Z) : list byte :=
  let i := uint32 r in
  if i <=? 0x7F then [toByte r]
  else if i <=? 0x7FF then
    [toByte (Z.lor 0xC0 (byteZ (toByte (Z.shiftr r 6))));
     toByte (Z.lor 0x80 (Z.land (byteZ (toByte r)) 0x3F))]
  else
    let invalid := (MaxRune <? i) || ((0xD800 <=? i) && (i <=? 0xDFFF)) in
    let r := if invalid then RuneError else r in
    if invalid || (i <=? 0xFFFF) then
      [toByte (Z.lor 0xE0 (byteZ (toByte (Z.shiftr r 12))));
       toByte (Z.lor 0x80 (Z.land (byteZ (toByte (Z.shiftr r 6))) 0x3F));
       toByte (Z.lor 0x80 (Z.land (byteZ (toByte r)) 0x3F))]
    else
      [toByte (Z.lor 0xF0 (byteZ (toByte (Z.shiftr r 18))));
       toByte (Z.lor 0x80 (Z.land (byteZ (toByte (Z.shiftr r 12))) 0x3F));
       toByte (Z.lor 0x80 (Z.land (byteZ (toByte (Z.shiftr r 6))) 0x3F));
       toByte (Z.lor 0x80 (Z.land (byteZ (toByte r)) 0x3F))].

(** [string(runes)] for a [[]rune]: the encodings, one after the other. *)
Definition stringOfRunes (runes : list Z) : list byte := flat_map encoderune runes.

End utf8.

(** The loop of [readUnicodeString]; [n] counts the iterations that remain
    before [bitIndex] reaches [len(data)/2].  Inside the loop
    [bitIndex*2+1 < len(data)], so the index arithmetic stays within [int]
    and is written without its wrap-around. *)
Fixpoint readUnicodeStringLoop (data : list byte) (n : nat) (bitIndex : Z)
    (runes : list Z) : outcome (list Z) :=
  match n with
  | O => Returns runes
  | S n' =>
      lo <- index data (bitIndex * 2) ;;
      stop <- (if Byte.eqb lo x00
               then hi <- index data (bitIndex * 2 + 1) ;;
                    Returns (Byte.eqb hi x00)
               else Returns false) ;;
      if stop : bool then Returns runes
      else
        rest <- sliceFrom data (bitIndex * 2) ;;
        let (r, _) := utf8.DecodeRune rest in
        readUnicodeStringLoop data n' (bitIndex + 1) (runes ++ [r])
  end.

(** [readUnicodeString(data []byte) string] *)
Definition readUnicodeString (data : list byte) : outcome (list byte) :=
  runes <- readUnicodeStringLoop data (Z.to_nat (Z.quot (len data) 2)) 0 [] ;;
  Returns (utf8.stringOfRunes runes).

Definition errStringSize (e : string) : string :=
  "golnk.readStringData: read size - " ++ e.

Definition errStringBytes (e : string) : string :=
  "golnk.readStringData: read bytes - " ++ e.

Definition errStringRecovered : string :=
  "golnk.readStringData: not enough bytes in reader".

(** The loop of [readStringData] over the two-byte units of [b];
    [bitIndex] stays below [int(size)/2], hence below 2^15. *)
Fixpoint readStringDataLoop (b : list byte) (n : nat) (bitIndex : Z)
    (runes : list Z) : outcome (list Z) :=
  match n with
  | O => Returns runes
  | S n' =>
      r <- (if bitIndex * 2 + 1 <? len b
            then h <- index b (bitIndex * 2) ;;
                 l <- index b (bitIndex * 2 + 1) ;;
                 Returns (toInt32 h l)
            else h <- index b (bitIndex * 2) ;;
                 Returns (toInt32 h x00)) ;;
      readStringDataLoop b n' (bitIndex + 1) (runes ++ [r])
  end.

(** The body of [readStringData], before the deferred [recover]: the
    string, the error and the reader as it is left.  [contentLen] is the
    length of the slice [b] the content is read into. *)
Definition contentLen (size : Z) (isUnicode : bool) : Z :=
  if isUnicode then uint16 (size * 2) else size.

Definition readStringDataBody (alloc : allocator) (r : Reader) (isUnicode : bool)
  : outcome (list byte * error) * Reader :=
  match binary_Read r 2 with
  | (ReadErr e, r') => (Returns ([], Some (errStringSize e)), r')
  | (ReadOk bs, r') =>
      let size := contentLen (leDecode bs) isUnicode in
      match make alloc size with
      | Panics p => (Panics p, r')
      | Aborts f => (Aborts f, r')
      | Returns b0 =>
          match binary_Read r' (len b0) with
          | (ReadErr e, r'') => (Returns ([], Some (errStringBytes e)), r'')
          | (ReadOk b, r'') =>
              if isUnicode then
                (runes <- readStringDataLoop b (Z.to_nat (Z.quot (int size) 2)) 0 [] ;;
                 Returns (utf8.stringOfRunes runes, None), r'')
              else (Returns (b, None), r'')
          end
      end
  end.

(** [readStringData(r io.Reader, isUnicode bool) (str string, err error)]:
    the deferred function turns a panic of the body into an error; a fatal
    error of the runtime is not a panic and stops the program. *)
Definition readStringData (alloc : allocator) (r : Reader) (isUnicode : bool)
  : outcome (list byte * error) * Reader :=
  match readStringDataBody alloc r isUnicode with
  | (Returns res, r') => (Returns res, r')
  | (Panics _, r') => (Returns ([], Some errStringRecovered), r')
  | (Aborts f, r') => (Aborts f, r')
  end.

(** The code points [readUnicodeString] is expected to collect, read off
    its description: the buffer is cut into two-byte units from the front,
    the scan ends at the first unit of two zero bytes or when fewer than
    two bytes remain, and each unit before that contributes the one rune
    [utf8.DecodeRune] returns at the start of the unit. *)
Fixpoint unicodeRunes (data : list byte) : list Z :=
  match data with
  | a :: ((b :: rest) as tl) =>
      if Byte.eqb a x00 && Byte.eqb b x00 then []
      else fst (utf8.DecodeRune (a :: tl)) :: unicodeRunes rest
  | _ => []
  end.

(** The values of Go's [int] and of its [uint64]. *)
Definition isInt (z : Z) : Prop := - 2 ^ 63 <= z < 2 ^ 63.
Definition isUint64 (z : Z) : Prop := 0 <= z < 2 ^ 64.

(** The widths of the size field [readSection] accepts. *)
Definition prefixWidth (sSize : Z) : Prop := sSize = 2 \/ sSize = 4 \/ sSize = 8.

(* ------------------------------------------------------------------ *)
(** ** bytes.go: the string conversions of integers *)

(** The verb [%x] of package fmt on an integer: lower-case hexadecimal
    digits without leading zeros, ["0"] for zero, a minus sign first for a
    negative number. *)
Definition fmt_x (z : Z) : string :=
  match z with
  | Z0 => "0"
  | Zpos p => HexString.Raw.of_pos p ""
  | Zneg p => String "-" (HexString.Raw.of_pos p "")
  end.

(** [uint16Str], [int16Str], [uint32Str], [int32Str]: [fmt.Sprint] of an
    integer prints it in decimal. *)
Definition uint16Str (u : Z) : string := fmt_d u.
Definition int16Str (u : Z) : string := fmt_d u.
Definition uint32Str (u : Z) : string := fmt_d u.
Definition int32Str (u : Z) : string := fmt_d u.

(** [uint32StrHex(u uint32) string] *)
Definition uint32StrHex (u : Z) : string :=
  let str := fmt_x u in
  let str := if negb (Nat.modulo (String.length str) 2 =? 0)%nat
             then ("0" ++ str)%string else str in
  ("0x" ++ str)%string.

(** The characters [0]..[9] and [a]..[f], and the strings made of them. *)
Definition lowerHexDigit (c : ascii) : bool :=
  let n := N_of_ascii c in
  ((48 <=? n) && (n <=? 57) || (97 <=? n) && (n <=? 102))%N.

Fixpoint allLowerHex (s : string) : bool :=
  match s with
  | EmptyString => true
  | String c s' => lowerHexDigit c && allLowerHex s'
  end.

(** [uint32TableStr(u uint32) string] *)
Definition uint32TableStr (u : Z) : string :=
  (uint32Str u ++ " - " ++ uint32StrHex u)%string.

(* ------------------------------------------------------------------ *)
(** ** Reference functions for the string decoders *)

(** The 16-bit code units of a buffer of two-byte little-endian units, the
    first byte of a unit being the low one; a last byte without a partner
    belongs to no unit. *)
Fixpoint codeUnits (b : list byte) : list Z :=
  match b with
  | lo :: hi :: rest => (byteZ lo + 256 * byteZ hi) :: codeUnits rest
  | _ => []
  end.

(** The two-byte little-endian form of a text of single bytes: each byte
    followed by a zero byte. *)
Definition widen (text : list byte) : list byte :=
  flat_map (fun c => [c; x00]) text.

(** Boolean comparisons on [Z] decided by linear arithmetic. *)
Ltac zb_true c :=
  replace c with true
    by (symmetry; first [apply Z.leb_le | apply Z.ltb_lt | apply Z.eqb_eq]; lia).

Ltac zb_false c :=
  replace c with false
    by (symmetry; first [apply Z.leb_gt | apply Z.ltb_ge | apply Z.eqb_neq]; lia).

(** Case analysis for [utf8.DecodeRune]: the comparisons on the first byte,
    the closed subterms they leave, and the comparisons that remain. *)
Ltac decode_cases a :=
  repeat match goal with
         | |- context [if ?c then _ else _] =>
             lazymatch c with
             | (byteZ a <? _) => destruct c eqn:?
             | (byteZ a =? _) => destruct c eqn:?
             end
         end.

Ltac eval_closed :=
  repeat match goal with
         | |- context [Z.land ?a 7] =>
             let v := eval vm_compute in (Z.land a 7) in
             progress change (Z.land a 7) with v
         | |- context [utf8.acceptRanges ?a] =>
             let v := eval vm_compute in (utf8.acceptRanges a) in
             progress change (utf8.acceptRanges a) with v
         | |- context [?a <=? ?b] =>
             let v := eval vm_compute in (a <=? b) in
             match v with
             | true => change (a <=? b) with true
             | false => change (a <=? b) with false
             end
         | |- context [?a <? ?b] =>
             let v := eval vm_compute in (a <? b) in
             match v with
             | true => change (a <? b) with true
             | false => change (a <? b) with false
             end
         | |- context [?a =? ?b] =>
             let v := eval vm_compute in (a =? b) in
             match v with
             | true => change (a =? b) with true
             | false => change (a =? b) with false
             end
         end; cbv beta iota zeta.

Ltac cmp_props :=
  repeat match goal with
         | H : (_ <? _) = true |- _ => apply Z.ltb_lt in H
         | H : (_ <? _) = false |- _ => apply Z.ltb_ge in H
         | H : (_ =? _) = true |- _ => apply Z.eqb_eq in H
         | H : (_ =? _) = false |- _ => apply Z.eqb_neq in H
         end.

Ltac split_ifs :=
  repeat match goal with
         | |- context [if ?c then _ else _] =>
             lazymatch c with
             | (_ <? _) => destruct c eqn:?
             | (_ || _) => fail
             end
         | |- context [(?a <? ?b) || _] => destruct (a <? b) eqn:?; cbn [orb]
         end.

(* ------------------------------------------------------------------ *)
(** ** Bytes and little-endian sequences *)

Lemma byteZ_range (b : byte) : 0 <= byteZ b < 256.
Proof.
  unfold byteZ. pose proof (Byte.to_N_bounded b). lia.
Qed.

Lemma toByte_byteZ (b : byte) : toByte (byteZ b) = b.
Proof.
  unfold toByte. rewrite Z.mod_small by apply byteZ_range.
  unfold byteZ. rewrite N2Z.id, Byte.of_to_N. reflexivity.
Qed.

Lemma byteZ_toByte (z : Z) : byteZ (toByte z) = z mod 256.
Proof.
  unfold toByte, byteZ.
  assert (Hr : 0 <= z mod 256 < 256) by (apply Z.mod_pos_bound; lia).
  destruct (Byte.of_N (Z.to_N (z mod 256))) as [b|] eqn:E.
  - apply Byte.to_of_N in E. rewrite E. rewrite Z2N.id; lia.
  - apply Byte.of_N_None_iff in E. lia.
Qed.

Lemma len_nonneg {A : Type} (l : list A) : 0 <= len l.
Proof. unfold len. lia. Qed.

Lemma len_app {A : Type} (l1 l2 : list A) : len (l1 ++ l2) = len l1 + len l2.
Proof. unfold len. rewrite length_app. lia. Qed.

Lemma len_cons {A : Type} (x : A) (l : list A) : len (x :: l) = 1 + len l.
Proof. unfold len. simpl length. lia. Qed.

Lemma leEncode_length (n : nat) (v : Z) : length (leEncode n v) = n.
Proof.
  revert v. induction n as [|n IH]; intros v; simpl; [reflexivity|].
  now rewrite IH.
Qed.

Lemma leDecode_bound (bs : list byte) : 0 <= leDecode bs < 256 ^ len bs.
Proof.
  induction bs as [|b bs IH].
  - simpl. unfold len. simpl. lia.
  - rewrite len_cons. cbn [leDecode].
    pose proof (byteZ_range b). pose proof (len_nonneg bs).
    replace (1 + len bs) with (Z.succ (len bs)) by lia.
    rewrite Z.pow_succ_r by assumption. lia.
Qed.

Lemma leDecode_leEncode (n : nat) (v : Z) :
  0 <= v < 256 ^ Z.of_nat n -> leDecode (leEncode n v) = v.
Proof.
  revert v. induction n as [|n IH]; intros v Hv.
  - simpl in *. lia.
  - cbn [leEncode leDecode]. rewrite byteZ_toByte.
    rewrite Nat2Z.inj_succ, Z.pow_succ_r in Hv by lia.
    rewrite IH.
    + pose proof (Z.div_mod v 256). lia.
    + split; [apply Z.div_pos; lia | apply Z.div_lt_upper_bound; lia].
Qed.

Lemma leEncode_leDecode (bs : list byte) : leEncode (length bs) (leDecode bs) = bs.
Proof.
  induction bs as [|b bs IH]; [reflexivity|].
  cbn [length leEncode leDecode].
  pose proof (byteZ_range b) as Hb.
  f_equal.
  - rewrite <- (toByte_byteZ b) at 2. unfold toByte.
    replace ((byteZ b + 256 * leDecode bs) mod 256) with (byteZ b mod 256);
      [reflexivity|].
    rewrite (Z.mul_comm 256), Z.mod_add by lia. reflexivity.
  - replace ((byteZ b + 256 * leDecode bs) / 256) with (leDecode bs); [exact IH|].
    rewrite (Z.mul_comm 256), Z.div_add by lia.
    rewrite (Z.div_small (byteZ b)) by lia. lia.
Qed.

(** The two recursions are those of package binary:
    [LittleEndian.Uint16(b)] is [uint16(b[0]) | uint16(b[1])<<8], and
    [PutUint16] stores [byte(v)] and [byte(v >> 8)]; the wider types go on
    in the same way. *)
Lemma lor_shiftl_add (a b k : Z) :
  0 <= k -> 0 <= a < 2 ^ k -> Z.lor a (Z.shiftl b k) = a + b * 2 ^ k.
Proof.
  intros Hk Ha.
  assert (Hland : Z.land a (Z.shiftl b k) = 0).
  { apply Z.bits_inj'. intros n Hn. rewrite Z.land_spec, Z.bits_0.
    destruct (Z_lt_ge_dec n k) as [Hlt|Hge].
    - rewrite Z.shiftl_spec_low by lia. apply andb_false_r.
    - rewrite <- (Z.mod_small a (2 ^ k)) by lia.
      rewrite Z.mod_pow2_bits_high by lia. reflexivity. }
  pose proof (Z.add_lor_land a (Z.shiftl b k)) as H.
  rewrite Hland, Z.shiftl_mul_pow2 in H by lia.
  rewrite Z.shiftl_mul_pow2 by lia. lia.
Qed.

Lemma leDecode_cons_lor (b : byte) (bs : list byte) :
  leDecode (b :: bs) = Z.lor (byteZ b) (Z.shiftl (leDecode bs) 8).
Proof.
  cbn [leDecode]. rewrite lor_shiftl_add by (pose proof (byteZ_range b); lia).
  lia.
Qed.

Lemma leEncode_succ_shiftr (n : nat) (v : Z) :
  leEncode (S n) v = toByte v :: leEncode n (Z.shiftr v 8).
Proof.
  cbn [leEncode]. rewrite Z.shiftr_div_pow2 by lia. reflexivity.
Qed.

(* ------------------------------------------------------------------ *)
(** ** The scalar codec *)

Lemma uint16Little_uint16Byte (v : Z) :
  0 <= v < 2 ^ 16 -> uint16Little (uint16Byte v) = Returns v.
Proof.
  intros Hv. unfold uint16Little, uint16Byte, len.
  rewrite leEncode_length. cbn [Z.of_nat Pos.of_succ_nat Pos.succ Z.ltb Z.compare Pos.compare Pos.compare_cont].
  rewrite <- (leEncode_length 2 v) at 1. rewrite firstn_all.
  rewrite leDecode_leEncode; [reflexivity|]. exact Hv.
Qed.

Lemma uint32Little_uint32Byte (v : Z) :
  0 <= v < 2 ^ 32 -> uint32Little (uint32Byte v) = Returns v.
Proof.
  intros Hv. unfold uint32Little, uint32Byte, len.
  rewrite leEncode_length. cbn [Z.of_nat Pos.of_succ_nat Pos.succ Z.ltb Z.compare Pos.compare Pos.compare_cont].
  rewrite <- (leEncode_length 4 v) at 1. rewrite firstn_all.
  rewrite leDecode_leEncode; [reflexivity|]. exact Hv.
Qed.

Lemma uint64Little_uint64Byte (v : Z) :
  0 <= v < 2 ^ 64 -> uint64Little (uint64Byte v) = Returns v.
Proof.
  intros Hv. unfold uint64Little, uint64Byte, len.
  rewrite leEncode_length. cbn [Z.of_nat Pos.of_succ_nat Pos.succ Z.ltb Z.compare Pos.compare Pos.compare_cont].
  rewrite <- (leEncode_length 8 v) at 1. rewrite firstn_all.
  rewrite leDecode_leEncode; [reflexivity|]. exact Hv.
Qed.

(** C9. Encoding an unsigned 16-, 32- or 64-bit value with [uint16Byte],
    [uint32Byte] or [uint64Byte] and decoding the bytes with [uint16Little],
    [uint32Little] or [uint64Little] returns the value: the decoder does not
    panic and its result is the original integer. *)
Theorem little_endian_roundtrip (v16 v32 v64 : Z) :
  0 <= v16 < 2 ^ 16 -> 0 <= v32 < 2 ^ 32 -> 0 <= v64 < 2 ^ 64 ->
  uint16Little (uint16Byte v16) = Returns v16 /\
  uint32Little (uint32Byte v32) = Returns v32 /\
  uint64Little (uint64Byte v64) = Returns v64.
Proof.
  intros H16 H32 H64. repeat split.
  - apply uint16Little_uint16Byte, H16.
  - apply uint32Little_uint32Byte, H32.
  - apply uint64Little_uint64Byte, H64.
Qed.

Lemma little_endian_roundtrip_witness :
  uint16Little (uint16Byte 0xABCD) = Returns 0xABCD /\
  uint32Little (uint32Byte 0xDEADBEEF) = Returns 0xDEADBEEF /\
  uint64Little (uint64Byte 0xFFFFFFFFFFFFFFFF) = Returns 0xFFFFFFFFFFFFFFFF.
Proof.
  apply (little_endian_roundtrip 0xABCD 0xDEADBEEF 0xFFFFFFFFFFFFFFFF); lia.
Defined.

(* ------------------------------------------------------------------ *)
(** ** Wrap-around *)

Lemma int_id (z : Z) : isInt z -> int z = z.
Proof.
  unfold isInt, int, wrapS. intros Hz.
  change (2 ^ (64 - 1)) with (2 ^ 63).
  rewrite Z.mod_small; lia.
Qed.

Lemma uint64_id (z : Z) : isUint64 z -> uint64 z = z.
Proof.
  unfold isUint64, uint64, wrapU. intros Hz. apply Z.mod_small. exact Hz.
Qed.

(* ------------------------------------------------------------------ *)
(** ** byteMaskuint16 *)

Lemma byteMaskuint16_low (b : Z) :
  0 <= b < 2 ^ 16 -> byteMaskuint16 b 0 = Returns (b mod 2 ^ 8).
Proof.
  intros Hb. unfold byteMaskuint16. cbn [Z.ltb Z.compare orb].
  change (uint16 (int (0 * 8))) with 0.
  change (uint16 (Z.shiftl (uint16 255) 0)) with (Z.ones 8).
  rewrite Z.land_ones by lia. rewrite Z.shiftr_0_r. reflexivity.
Qed.

Lemma byteMaskuint16_high (b : Z) :
  0 <= b < 2 ^ 16 -> byteMaskuint16 b 1 = Returns (b / 2 ^ 8).
Proof.
  intros Hb. unfold byteMaskuint16. cbn [Z.ltb Z.compare orb Pos.compare Pos.compare_cont].
  change (uint16 (int (1 * 8))) with 8.
  change (uint16 (Z.shiftl (uint16 255) 8)) with (Z.shiftl (Z.ones 8) 8).
  rewrite Z.shiftr_land, Z.shiftr_shiftl_l by lia.
  change (Z.shiftl (Z.ones 8) (8 - 8)) with (Z.ones 8).
  rewrite Z.land_ones, Z.shiftr_div_pow2 by lia.
  rewrite Z.mod_small; [reflexivity|].
  split; [apply Z.div_pos; lia | apply Z.div_lt_upper_bound; lia].
Qed.

Lemma byteMaskuint16_panics (b n : Z) :
  n < 0 \/ 2 < n ->
  byteMaskuint16 b n = Panics (PanicString ("invalid byte mask, got " ++ fmt_d n)).
Proof.
  intros Hn. unfold byteMaskuint16.
  destruct Hn as [Hn|Hn].
  - apply Z.ltb_lt in Hn. rewrite Hn. reflexivity.
  - apply Z.ltb_lt in Hn. rewrite Hn, orb_true_r. reflexivity.
Qed.

(** C5. [byteMaskuint16] at index 2, which is outside {0,1}: the guard
    [n < 0 || n > 2] lets the index through, the mask [0xFF << 16] is zero
    in 16 bits, and the function returns 0 for every argument instead of
    panicking. *)
Theorem byteMaskuint16_index_two_returns_zero :
  forall b : Z, byteMaskuint16 b 2 = Returns 0.
Proof.
  intros b. unfold byteMaskuint16.
  cbn [Z.ltb Z.compare orb Pos.compare Pos.compare_cont].
  change (uint16 (int (2 * 8))) with 16.
  change (uint16 (Z.shiftl (uint16 255) 16)) with 0.
  rewrite Z.land_0_r. reflexivity.
Qed.

(** [byteMaskuint16] on the indices it serves and on those it refuses: the
    low eight bits at index 0, the high eight bits at index 1, and a panic
    with the message of the source below 0 and above 2. *)
Theorem byteMaskuint16_spec (b n : Z) :
  0 <= b < 2 ^ 16 ->
  byteMaskuint16 b 0 = Returns (b mod 2 ^ 8) /\
  byteMaskuint16 b 1 = Returns (b / 2 ^ 8) /\
  (n < 0 \/ 2 < n ->
   byteMaskuint16 b n = Panics (PanicString ("invalid byte mask, got " ++ fmt_d n))).
Proof.
  intros Hb. split; [|split].
  - apply byteMaskuint16_low, Hb.
  - apply byteMaskuint16_high, Hb.
  - apply byteMaskuint16_panics.
Qed.

Lemma byteMaskuint16_spec_witness :
  byteMaskuint16 0xABCD 0 = Returns 0xCD /\
  byteMaskuint16 0xABCD 1 = Returns 0xAB /\
  byteMaskuint16 0xABCD 3 = Panics (PanicString "invalid byte mask, got 3").
Proof.
  destruct (byteMaskuint16_spec 0xABCD 3) as (H0 & H1 & H3); [lia|].
  split; [exact H0|split; [exact H1|]]. apply H3. right. lia.
Defined.

(* ------------------------------------------------------------------ *)
(** ** ReadBytes *)

Lemma slice_ok {A : Type} (b : list A) (lo hi : Z) :
  0 <= lo <= hi -> hi <= len b ->
  slice b lo hi = Returns (firstn (Z.to_nat (hi - lo)) (skipn (Z.to_nat lo) b)).
Proof.
  intros H1 H2. unfold slice.
  zb_true (0 <=? lo).
  zb_true (lo <=? hi).
  zb_true (hi <=? len b).
  reflexivity.
Qed.

Lemma slice_panics {A : Type} (b : list A) (lo hi : Z) :
  lo < 0 \/ hi < lo \/ len b < hi -> slice b lo hi = Panics SliceBoundsOutOfRange.
Proof.
  intros H. unfold slice.
  destruct (0 <=? lo) eqn:E1; [|reflexivity].
  destruct (lo <=? hi) eqn:E2; [|reflexivity].
  destruct (hi <=? len b) eqn:E3; [|reflexivity].
  apply Z.leb_le in E1, E2, E3. lia.
Qed.

Lemma sliceFrom_ok {A : Type} (b : list A) (lo : Z) :
  0 <= lo <= len b -> sliceFrom b lo = Returns (skipn (Z.to_nat lo) b).
Proof.
  intros H. unfold sliceFrom. rewrite slice_ok by lia.
  rewrite firstn_all2; [reflexivity|].
  rewrite length_skipn. unfold len in *. lia.
Qed.

(** [ReadBytes] when [offset] and [num] are not negative and their sum does
    not overflow [int]: nothing at or past the end, the rest of the buffer
    when [offset+num] reaches the end, [num] bytes otherwise. *)
Theorem ReadBytes_clamps (b : list byte) (offset num : Z) :
  0 <= offset -> 0 <= num -> offset + num < 2 ^ 63 ->
  (len b <= offset -> ReadBytes b offset num = Returns ([], 0)) /\
  (offset < len b -> len b <= offset + num ->
   ReadBytes b offset num = Returns (skipn (Z.to_nat offset) b, len b - offset)) /\
  (offset + num < len b ->
   ReadBytes b offset num
   = Returns (firstn (Z.to_nat num) (skipn (Z.to_nat offset) b), num)).
Proof.
  intros Ho Hn Hsum.
  assert (Hint : int (offset + num) = offset + num)
    by (apply int_id; unfold isInt; lia).
  unfold ReadBytes. rewrite Hint. split; [|split].
  - intros H. apply Z.leb_le in H. rewrite H. reflexivity.
  - intros H1 H2.
    zb_false (len b <=? offset).
    apply Z.leb_le in H2. rewrite H2.
    rewrite sliceFrom_ok by lia. cbn [bind]. do 2 f_equal.
    unfold len. rewrite length_skipn. unfold len in H1. lia.
  - intros H.
    zb_false (len b <=? offset).
    zb_false (len b <=? offset + num).
    rewrite slice_ok by lia. cbn [bind].
    replace (offset + num - offset) with num by lia. reflexivity.
Qed.

Lemma ReadBytes_clamps_witness :
  ReadBytes [x00; x01; x02; x03; x04; x05; x06; x07; x08; x09] 10 3 = Returns ([], 0) /\
  ReadBytes [x00; x01; x02; x03; x04; x05; x06; x07; x08; x09] 5 100
  = Returns ([x05; x06; x07; x08; x09], 5) /\
  ReadBytes [x00; x01; x02; x03; x04; x05; x06; x07; x08; x09] 5 2
  = Returns ([x05; x06], 2).
Proof.
  pose (b := [x00; x01; x02; x03; x04; x05; x06; x07; x08; x09]).
  split; [|split].
  - destruct (ReadBytes_clamps b 10 3) as (H & _ & _); [lia|lia|lia|].
    apply H. unfold len; simpl; lia.
  - destruct (ReadBytes_clamps b 5 100) as (_ & H & _); [lia|lia|lia|].
    apply H; unfold len; simpl; lia.
  - destruct (ReadBytes_clamps b 5 2) as (_ & _ & H); [lia|lia|lia|].
    apply H; unfold len; simpl; lia.
Defined.

(** C6. [ReadBytes] on a two-byte buffer with [offset = 1] and
    [num = 2^63 - 1], both non-negative: [offset+num] wraps around to
    [-2^63], the test [offset+num >= len(b)] fails, and the slice
    expression [b[1 : -2^63]] panics; the remaining byte is not returned. *)
Theorem ReadBytes_overflow_panics :
  ReadBytes [x01; x02] 1 (2 ^ 63 - 1) = Panics SliceBoundsOutOfRange.
Proof.
  reflexivity.
Qed.

(** C10. [ReadBytes] panics on a negative argument: for every buffer, a
    negative [offset] ends in a slice expression with a negative bound, and
    an [offset] inside the buffer with a negative [num] ends in the slice
    expression [b[offset : offset+num]] whose bounds are inverted.  Neither
    returns an empty or a clamped result. *)
Theorem ReadBytes_negative_argument_panics (b : list byte) (offset num : Z) :
  isInt offset -> isInt num ->
  offset < 0 \/ (0 <= offset < len b /\ num < 0) ->
  ReadBytes b offset num = Panics SliceBoundsOutOfRange.
Proof.
  intros Ho Hn H. unfold ReadBytes.
  pose proof (len_nonneg b) as Hl.
  destruct H as [H|[H1 H2]].
  - zb_false (len b <=? offset).
    destruct (len b <=? int (offset + num)).
    + unfold sliceFrom. rewrite slice_panics by lia. reflexivity.
    + rewrite slice_panics by lia. reflexivity.
  - zb_false (len b <=? offset).
    rewrite int_id by (unfold isInt in *; lia).
    zb_false (len b <=? offset + num).
    rewrite slice_panics by lia. reflexivity.
Qed.

Lemma ReadBytes_negative_argument_panics_witness :
  ReadBytes [x01; x02; x03] (-1) 2 = Panics SliceBoundsOutOfRange /\
  ReadBytes [x01; x02; x03] 1 (-1) = Panics SliceBoundsOutOfRange.
Proof.
  split.
  - apply (ReadBytes_negative_argument_panics [x01; x02; x03] (-1) 2);
      unfold isInt; lia.
  - apply (ReadBytes_negative_argument_panics [x01; x02; x03] 1 (-1));
      unfold isInt; [lia|lia|]. right. unfold len; simpl; lia.
Defined.

(* ------------------------------------------------------------------ *)
(** ** Readers *)

Lemma firstn_len_app {A : Type} (pre rest : list A) (n : Z) :
  len pre = n -> firstn (Z.to_nat n) (pre ++ rest) = pre.
Proof.
  intros H. unfold len in H. subst n. rewrite Nat2Z.id.
  rewrite firstn_app, Nat.sub_diag, firstn_all. cbn [firstn]. apply app_nil_r.
Qed.

Lemma skipn_len_app {A : Type} (pre rest : list A) (n : Z) :
  len pre = n -> skipn (Z.to_nat n) (pre ++ rest) = rest.
Proof.
  intros H. unfold len in H. subst n. rewrite Nat2Z.id.
  rewrite skipn_app, Nat.sub_diag, skipn_all. reflexivity.
Qed.

Lemma ReadFull_zero (r : Reader) : ReadFull r 0 = (ReadOk [], r).
Proof. reflexivity. Qed.

Lemma ReadFull_exact (pre rest : list byte) (n : Z) :
  len pre = n -> ReadFull (pre ++ rest) n = (ReadOk pre, rest).
Proof.
  intros H. unfold ReadFull.
  pose proof (len_nonneg pre) as Hp. pose proof (len_nonneg rest) as Hr.
  destruct (n <=? 0) eqn:E0.
  - apply Z.leb_le in E0. assert (Hz : len pre = 0) by lia.
    unfold len in Hz. destruct pre; [reflexivity | simpl in Hz; lia].
  - apply Z.leb_gt in E0. rewrite len_app.
    zb_false (len pre + len rest =? 0).
    zb_false (len pre + len rest <? n).
    rewrite firstn_len_app, skipn_len_app by assumption. reflexivity.
Qed.


(** A stream that ends before [n] bytes: the read fails and reports one of
    the two end-of-input errors. *)
Lemma ReadFull_short (r : Reader) (n : Z) :
  len r < n ->
  exists e r', ReadFull r n = (ReadErr e, r') /\ (e = io_EOF \/ e = io_ErrUnexpectedEOF).
Proof.
  intros H. unfold ReadFull. pose proof (len_nonneg r) as Hr.
  zb_false (n <=? 0).
  destruct (len r =? 0).
  - exists io_EOF, r. auto.
  - apply Z.ltb_lt in H. rewrite H. exists io_ErrUnexpectedEOF, []. auto.
Qed.

Lemma make_ok (alloc : allocator) (n : Z) :
  0 <= n <= maxAlloc -> granted alloc n = true ->
  make alloc n = Returns (repeat x00 (Z.to_nat n)).
Proof.
  intros H Ha. unfold make. unfold maxAlloc in *.
  rewrite int_id by (unfold isInt; lia).
  zb_false (n <? 0).
  zb_false (2 ^ 48 <? n).
  rewrite Ha. reflexivity.
Qed.

Lemma make_small (alloc : allocator) (n : Z) :
  0 <= n < 2 ^ 16 -> make alloc n = Returns (repeat x00 (Z.to_nat n)).
Proof.
  intros H. apply make_ok; [unfold maxAlloc; lia|].
  unfold granted, smallRequest. zb_true (n <? 2 ^ 16). reflexivity.
Qed.

Lemma make_out_of_memory (alloc : allocator) (n : Z) :
  0 <= n <= maxAlloc -> granted alloc n = false ->
  make alloc n = Aborts OutOfMemory.
Proof.
  intros H Ha. unfold make. unfold maxAlloc in *.
  rewrite int_id by (unfold isInt; lia).
  zb_false (n <? 0).
  zb_false (2 ^ 48 <? n).
  rewrite Ha. reflexivity.
Qed.

Lemma make_panics (alloc : allocator) (n : Z) :
  isUint64 n -> maxAlloc < n -> make alloc n = Panics MakeSliceLenOutOfRange.
Proof.
  unfold isUint64, maxAlloc. intros Hn Hm. unfold make.
  destruct (int n <? 0) eqn:E; [reflexivity|].
  apply Z.ltb_ge in E. cbn [orb].
  assert (Hi : int n = n).
  { destruct (Z_lt_ge_dec n (2 ^ 63)) as [Hlt|Hge].
    - apply int_id. unfold isInt. lia.
    - exfalso. revert E. unfold int, wrapS. change (2 ^ (64 - 1)) with (2 ^ 63).
      replace (n + 2 ^ 63) with (n - 2 ^ 63 + 1 * 2 ^ 64) by lia.
      rewrite Z.mod_add by lia. rewrite Z.mod_small by lia. lia. }
  rewrite Hi. unfold maxAlloc.
  zb_true (2 ^ 48 <? n).
  reflexivity.
Qed.

Lemma len_repeat_x00 (n : Z) : 0 <= n -> len (repeat x00 (Z.to_nat n)) = n.
Proof.
  intros H. unfold len. rewrite repeat_length. apply Z2Nat.id. exact H.
Qed.

(* ------------------------------------------------------------------ *)
(** ** readSection *)

Lemma leDecode_uint64 (bs : list byte) : len bs <= 8 -> isUint64 (leDecode bs).
Proof.
  intros H. pose proof (leDecode_bound bs) as Hb. pose proof (len_nonneg bs) as Hl.
  unfold isUint64. split; [lia|].
  apply Z.lt_le_trans with (256 ^ len bs); [lia|].
  change (2 ^ 64) with (256 ^ 8). apply Z.pow_le_mono_r; lia.
Qed.

Lemma readSectionSize_ok (sSize : Z) (prefix rest : list byte) :
  prefixWidth sSize -> len prefix = sSize ->
  readSectionSize (prefix ++ rest) sSize = (inr (leDecode prefix, prefix), rest).
Proof.
  intros Hw Hlen.
  assert (Hu : uint64 (leDecode prefix) = leDecode prefix).
  { apply uint64_id, leDecode_uint64. unfold prefixWidth in Hw. lia. }
  assert (Hn : length prefix = Z.to_nat sSize) by (unfold len in Hlen; lia).
  destruct Hw as [Hw|[Hw|Hw]]; rewrite Hw in *; unfold readSectionSize, binary_Read;
    rewrite ReadFull_exact by assumption; cbv zeta; rewrite ?Hu;
    unfold uint16Byte, uint32Byte, uint64Byte.
  - change 2%nat with (Z.to_nat 2). rewrite <- Hn, leEncode_leDecode. reflexivity.
  - change 4%nat with (Z.to_nat 4). rewrite <- Hn, leEncode_leDecode. reflexivity.
  - change 8%nat with (Z.to_nat 8). rewrite <- Hn, leEncode_leDecode. reflexivity.
Qed.

(** [readSection] once the size field has been read: the ceiling test, the
    allocation, and the read of the payload. *)
Lemma readSection_after_size (alloc : allocator) (sSize maxSize : Z)
    (prefix rest : list byte) :
  prefixWidth sSize -> len prefix = sSize ->
  readSection alloc (prefix ++ rest) sSize maxSize =
  let computed := computedSize (leDecode prefix) sSize in
  if maxSize <? computed
  then (Returns (prefix, None, 0, Some (errComputedSize computed maxSize)), rest)
  else
    match make alloc computed with
    | Panics p => (Panics p, rest)
    | Aborts f => (Aborts f, rest)
    | Returns tempData =>
        match binary_Read rest (len tempData) with
        | (ReadErr e, r'') =>
            (Returns (prefix, None, 0, Some (errReadSection computed e)), r'')
        | (ReadOk tempData', r'') =>
            (Returns (prefix ++ tempData', Some tempData', int (leDecode prefix), None), r'')
        end
    end.
Proof.
  intros Hw Hlen. unfold readSection.
  rewrite readSectionSize_ok by assumption. reflexivity.
Qed.

Lemma readSection_over_ceiling (alloc : allocator) (sSize maxSize : Z)
    (prefix rest : list byte) :
  prefixWidth sSize -> len prefix = sSize ->
  maxSize < computedSize (leDecode prefix) sSize ->
  readSection alloc (prefix ++ rest) sSize maxSize
  = (Returns (prefix, None, 0,
              Some (errComputedSize (computedSize (leDecode prefix) sSize) maxSize)),
     rest).
Proof.
  intros Hw Hlen Hc. rewrite readSection_after_size by assumption. cbv zeta.
  apply Z.ltb_lt in Hc. rewrite Hc. reflexivity.
Qed.

Lemma computedSize_no_underflow (declared sSize : Z) :
  prefixWidth sSize -> isUint64 declared -> sSize <= declared ->
  computedSize declared sSize = declared - sSize.
Proof.
  unfold prefixWidth, isUint64, computedSize. intros Hw Hd Hle.
  rewrite (uint64_id sSize) by (unfold isUint64; lia).
  apply uint64_id. unfold isUint64. lia.
Qed.

Lemma computedSize_underflow (declared sSize : Z) :
  prefixWidth sSize -> isUint64 declared -> declared < sSize ->
  computedSize declared sSize = 2 ^ 64 - (sSize - declared).
Proof.
  unfold prefixWidth, isUint64, computedSize. intros Hw Hd Hlt.
  rewrite (uint64_id sSize) by (unfold isUint64; lia).
  unfold uint64, wrapU.
  replace (declared - sSize) with (2 ^ 64 - (sSize - declared) + (-1) * 2 ^ 64) by lia.
  rewrite Z.mod_add by lia. apply Z.mod_small. lia.
Qed.

(** C3. When the computed payload size [sectionSize - uint64(sSize)] is
    above the ceiling [maxSize], [readSection] returns the error whose
    message is "golnk.readSection: invalid computed size got", the computed
    size in decimal, "; expected a size <" and the ceiling in decimal; it
    returns no reader, and the input is left right after the size field. *)
Theorem readSection_too_large (alloc : allocator) (sSize maxSize : Z)
    (prefix rest : list byte) :
  prefixWidth sSize -> len prefix = sSize ->
  maxSize < computedSize (leDecode prefix) sSize ->
  readSection alloc (prefix ++ rest) sSize maxSize
  = (Returns (prefix, None, 0,
              Some ("golnk.readSection: invalid computed size got "
                    ++ fmt_d (computedSize (leDecode prefix) sSize)
                    ++ "; expected a size < " ++ fmt_d maxSize)%string),
     rest).
Proof.
  intros Hw Hlen Hc. rewrite readSection_over_ceiling by assumption. reflexivity.
Qed.

Lemma readSection_too_large_witness :
  readSection unlimited [x0c; x00; x00; x00; x01; x02; x03; x04; x05; x06; x07; x08; x09] 4 7
  = (Returns ([x0c; x00; x00; x00], None, 0,
              Some "golnk.readSection: invalid computed size got 8; expected a size < 7"%string),
     [x01; x02; x03; x04; x05; x06; x07; x08; x09]).
Proof.
  apply (readSection_too_large unlimited 4 7 [x0c; x00; x00; x00]
           [x01; x02; x03; x04; x05; x06; x07; x08; x09]).
  - right. left. reflexivity.
  - reflexivity.
  - vm_compute. reflexivity.
Defined.

(** C2. A declared size below the width of the size field, with a ceiling
    below the wrapped difference [2^64 - (sSize - sectionSize)]: the
    unsigned subtraction wraps around, the result is above the ceiling, and
    [readSection] returns the "invalid computed size" error, with no reader
    and no payload byte. *)
Theorem readSection_underflow_error (alloc : allocator) (sSize maxSize : Z)
    (prefix rest : list byte) :
  prefixWidth sSize -> len prefix = sSize ->
  leDecode prefix < sSize ->
  maxSize < 2 ^ 64 - (sSize - leDecode prefix) ->
  readSection alloc (prefix ++ rest) sSize maxSize
  = (Returns (prefix, None, 0,
              Some (errComputedSize (2 ^ 64 - (sSize - leDecode prefix)) maxSize)),
     rest).
Proof.
  intros Hw Hlen Hlt Hmax.
  assert (Hc : computedSize (leDecode prefix) sSize = 2 ^ 64 - (sSize - leDecode prefix)).
  { apply computedSize_underflow; try assumption.
    apply leDecode_uint64. unfold prefixWidth in Hw. lia. }
  rewrite readSection_over_ceiling by (try assumption; lia).
  rewrite Hc. reflexivity.
Qed.

Lemma readSection_underflow_error_witness :
  readSection unlimited [x01; x00; x00; x00; x41; x42] 4 100
  = (Returns ([x01; x00; x00; x00], None, 0,
              Some "golnk.readSection: invalid computed size got 18446744073709551613; expected a size < 100"%string),
     [x41; x42]).
Proof.
  apply (readSection_underflow_error unlimited 4 100 [x01; x00; x00; x00] [x41; x42]).
  - right. left. reflexivity.
  - reflexivity.
  - vm_compute. reflexivity.
  - vm_compute. reflexivity.
Defined.

(** C2, as stated for every ceiling, fails: with a two-byte size field that
    declares 0 and the ceiling [2^64 - 1], the wrapped size [2^64 - 2]
    passes the ceiling test and [make] panics; no error is returned. *)
Lemma readSection_underflow_counterexample :
  prefixWidth 2 /\ isUint64 (2 ^ 64 - 1) /\ leDecode [x00; x00] < 2 /\
  forall alloc : allocator,
    readSection alloc [x00; x00] 2 (2 ^ 64 - 1) = (Panics MakeSliceLenOutOfRange, []).
Proof.
  split; [left; reflexivity|]. split; [unfold isUint64; lia|].
  split; [vm_compute; reflexivity|]. intros alloc. reflexivity.
Qed.




(* ------------------------------------------------------------------ *)
(** ** readString *)

Lemma byte_eqb_x00 (b : byte) : Byte.eqb b x00 = true <-> b = x00.
Proof.
  split.
  - intros H. apply Byte.byte_dec_bl in H. exact H.
  - intros ->. reflexivity.
Qed.

Lemma IndexByte_absent (data : list byte) :
  ~ In x00 data -> IndexByte data x00 = -1.
Proof.
  induction data as [|x data IH]; intros Hno; [reflexivity|].
  cbn [IndexByte].
  destruct (Byte.eqb x x00) eqn:E.
  - apply byte_eqb_x00 in E. exfalso. apply Hno. left. exact E.
  - rewrite IH by (intros Hin; apply Hno; right; exact Hin). reflexivity.
Qed.

Lemma IndexByte_first (pre post : list byte) :
  ~ In x00 pre -> IndexByte (pre ++ x00 :: post) x00 = len pre.
Proof.
  induction pre as [|x pre IH]; intros Hno.
  - reflexivity.
  - cbn [app IndexByte]. rewrite len_cons.
    destruct (Byte.eqb x x00) eqn:E.
    + apply byte_eqb_x00 in E. exfalso. apply Hno. left. exact E.
    + rewrite IH by (intros Hin; apply Hno; right; exact Hin).
      pose proof (len_nonneg pre) as Hl.
      zb_false (len pre =? -1).
      lia.
Qed.

Lemma sliceTo_len_app {A : Type} (pre rest : list A) :
  sliceTo (pre ++ rest) (len pre) = Returns pre.
Proof.
  unfold sliceTo. pose proof (len_nonneg pre) as Hp. pose proof (len_nonneg rest) as Hr.
  rewrite slice_ok by (rewrite ?len_app; lia).
  cbn [Z.to_nat skipn]. rewrite Z.sub_0_r.
  rewrite firstn_len_app by reflexivity. reflexivity.
Qed.

(** C8. [readString] returns the bytes before the first zero byte, and the
    whole buffer when it holds no zero byte: for a [pre] without a zero
    byte, the result on [pre] followed by a zero byte and anything else is
    [pre], and the result on [pre] alone is [pre].  It returns on every
    buffer, and what it returns holds no zero byte. *)
Theorem readString_spec (pre post : list byte) :
  ~ In x00 pre ->
  readString (pre ++ x00 :: post) = Returns pre /\
  readString pre = Returns pre /\
  (forall data, exists s, readString data = Returns s /\ ~ In x00 s).
Proof.
  intros Hno.
  assert (Hzero : forall p q, ~ In x00 p -> readString (p ++ x00 :: q) = Returns p).
  { intros p q Hp. unfold readString. rewrite IndexByte_first by assumption.
    pose proof (len_nonneg p) as Hl.
    zb_false (len p =? -1).
    apply sliceTo_len_app. }
  assert (Hall : forall p, ~ In x00 p -> readString p = Returns p).
  { intros p Hp. unfold readString. rewrite IndexByte_absent by assumption.
    cbn [Z.eqb]. rewrite <- (app_nil_r p) at 1. apply sliceTo_len_app. }
  split; [apply Hzero, Hno|]. split; [apply Hall, Hno|].
  intros data.
  assert (Hsplit : (exists p q, data = p ++ x00 :: q /\ ~ In x00 p) \/ ~ In x00 data).
  { induction data as [|x data IH].
    - right. intros [].
    - destruct (Byte.eqb x x00) eqn:E.
      + apply byte_eqb_x00 in E. subst x. left. exists [], data. split; [reflexivity|].
        intros [].
      + assert (Hx : x <> x00) by (intros ->; discriminate E).
        destruct IH as [(p & q & -> & Hp)|Hd].
        * left. exists (x :: p), q. split; [reflexivity|].
          intros [H|H]; [apply Hx; exact H | apply Hp, H].
        * right. intros [H|H]; [apply Hx; exact H | apply Hd, H]. }
  destruct Hsplit as [(p & q & -> & Hp)|Hd].
  - exists p. split; [apply Hzero, Hp | exact Hp].
  - exists data. split; [apply Hall, Hd | exact Hd].
Qed.

Lemma readString_spec_witness :
  readString [x41; x42; x00; x43] = Returns [x41; x42] /\
  readString [x41; x42] = Returns [x41; x42].
Proof.
  destruct (readString_spec [x41; x42] [x43]) as (H1 & H2 & _).
  - intros [H|[H|[]]]; discriminate H.
  - split; [exact H1 | exact H2].
Defined.

(* ------------------------------------------------------------------ *)
(** ** readUnicodeString *)

Lemma index_len_app {A : Type} (pre : list A) (a : A) (rest : list A) :
  index (pre ++ a :: rest) (len pre) = Returns a.
Proof.
  unfold index. pose proof (len_nonneg pre) as Hp. pose proof (len_nonneg rest) as Hr.
  zb_true (0 <=? len pre).
  replace (len pre <? len (pre ++ a :: rest)) with true
    by (symmetry; apply Z.ltb_lt; rewrite len_app, len_cons; lia).
  cbn [andb]. unfold len. rewrite Nat2Z.id.
  rewrite nth_error_app2 by lia. rewrite Nat.sub_diag. reflexivity.
Qed.

Lemma sliceFrom_len_app {A : Type} (pre rest : list A) :
  sliceFrom (pre ++ rest) (len pre) = Returns rest.
Proof.
  pose proof (len_nonneg pre) as Hp. pose proof (len_nonneg rest) as Hr.
  rewrite sliceFrom_ok by (rewrite len_app; lia).
  rewrite skipn_len_app by reflexivity. reflexivity.
Qed.

Lemma half_len_short {A : Type} (suffix : list A) :
  Z.to_nat (Z.quot (len suffix) 2) = 0%nat -> suffix = [] \/ exists a, suffix = [a].
Proof.
  destruct suffix as [|a [|b rest]]; intros H.
  - left. reflexivity.
  - right. exists a. reflexivity.
  - exfalso. rewrite !len_cons in H. pose proof (len_nonneg rest) as Hr.
    rewrite Z.quot_div_nonneg in H by lia.
    assert (1 <= (1 + (1 + len rest)) / 2) by (apply Z.div_le_lower_bound; lia).
    lia.
Qed.

Lemma half_len_step {A : Type} (a b : A) (rest : list A) :
  Z.to_nat (Z.quot (len (a :: b :: rest)) 2) = S (Z.to_nat (Z.quot (len rest) 2)).
Proof.
  rewrite !len_cons. pose proof (len_nonneg rest) as Hr.
  rewrite !Z.quot_div_nonneg by lia.
  replace (1 + (1 + len rest)) with (len rest + 1 * 2) by lia.
  rewrite Z.div_add by lia.
  assert (0 <= len rest / 2) by (apply Z.div_pos; lia).
  lia.
Qed.

(** The loop, started at a pair boundary with [pre] behind it and [suffix]
    ahead, returns the runes it was given followed by those of [suffix]. *)
Lemma readUnicodeStringLoop_spec (n : nat) :
  forall (suffix pre : list byte) (bitIndex : Z) (runes : list Z),
    len pre = bitIndex * 2 ->
    n = Z.to_nat (Z.quot (len suffix) 2) ->
    readUnicodeStringLoop (pre ++ suffix) n bitIndex runes
    = Returns (runes ++ unicodeRunes suffix).
Proof.
  induction n as [|n IH]; intros suffix pre bitIndex runes Hpre Hn.
  - cbn [readUnicodeStringLoop]. symmetry in Hn.
    destruct (half_len_short suffix Hn) as [->|[a ->]];
      cbn [unicodeRunes]; rewrite app_nil_r; reflexivity.
  - destruct suffix as [|a [|b rest]]; try discriminate Hn.
    rewrite half_len_step in Hn. injection Hn as Hn.
    cbn [readUnicodeStringLoop]. rewrite <- Hpre.
    rewrite index_len_app. cbn [bind].
    assert (Hb : index (pre ++ a :: b :: rest) (len pre + 1) = Returns b).
    { replace (pre ++ a :: b :: rest) with ((pre ++ [a]) ++ b :: rest)
        by (rewrite <- app_assoc; reflexivity).
      replace (len pre + 1) with (len (pre ++ [a]))
        by (rewrite len_app, len_cons; unfold len; simpl; lia).
      apply index_len_app. }
    rewrite Hb. cbn [bind unicodeRunes].
    assert (Hrec : forall r,
      readUnicodeStringLoop (pre ++ a :: b :: rest) n (bitIndex + 1) (runes ++ [r])
      = Returns (runes ++ r :: unicodeRunes rest)).
    { intros r.
      replace (pre ++ a :: b :: rest) with ((pre ++ [a; b]) ++ rest)
        by (rewrite <- app_assoc; reflexivity).
      rewrite IH; [rewrite <- app_assoc; reflexivity| |exact Hn].
      rewrite len_app, !len_cons. unfold len at 2. simpl. lia. }
    destruct (Byte.eqb a x00) eqn:Ea; cbn [bind andb].
    + destruct (Byte.eqb b x00) eqn:Eb.
      * rewrite app_nil_r. reflexivity.
      * rewrite sliceFrom_len_app. cbn [bind].
        destruct (utf8.DecodeRune (a :: b :: rest)) as [r sz]. cbn [fst].
        apply Hrec.
    + rewrite sliceFrom_len_app. cbn [bind].
      destruct (utf8.DecodeRune (a :: b :: rest)) as [r sz]. cbn [fst].
      apply Hrec.
Qed.

(** [readUnicodeString] never panics and returns the UTF-8 form of the
    runes of the two-byte units before the first unit of two zero bytes,
    one rune for each unit; a last byte without a partner makes no unit. *)
Theorem readUnicodeString_spec :
  forall data : list byte,
    readUnicodeString data = Returns (utf8.stringOfRunes (unicodeRunes data)).
Proof.
  intros data. unfold readUnicodeString.
  rewrite (readUnicodeStringLoop_spec _ data [] 0 []); reflexivity.
Qed.

Lemma list_pair_ind {A : Type} (P : list A -> Prop) :
  P [] -> (forall a, P [a]) -> (forall a b l, P l -> P (a :: b :: l)) ->
  forall l, P l.
Proof.
  intros H0 H1 H2 l.
  assert (H : P l /\ forall a, P (a :: l)).
  { induction l as [|x l [IHl IHc]]; [split; [exact H0 | exact H1]|].
    split; [apply IHc|]. intros a. apply H2, IHl. }
  apply H.
Qed.

(** The number of runes collected is at most the number of two-byte units
    of the buffer. *)
Lemma unicodeRunes_length (data : list byte) :
  2 * Z.of_nat (length (unicodeRunes data)) <= len data.
Proof.
  induction data as [| a | a b l IH] using list_pair_ind.
  - cbn. lia.
  - cbn. lia.
  - rewrite !len_cons. cbn [unicodeRunes].
    destruct (Byte.eqb a x00 && Byte.eqb b x00); cbn [length]; pose proof (len_nonneg l); lia.
Qed.

(** A byte appended to a buffer of even length adds no rune: the number of
    runes collected is the same with and without it. *)
Lemma unicodeRunes_trailing_length (data : list byte) (c : byte) :
  Nat.even (length data) = true ->
  length (unicodeRunes (data ++ [c])) = length (unicodeRunes data).
Proof.
  induction data as [| a | a b l IH] using list_pair_ind; intros Heven.
  - reflexivity.
  - discriminate Heven.
  - cbn [app unicodeRunes].
    destruct (Byte.eqb a x00 && Byte.eqb b x00); [reflexivity|].
    cbn [length]. f_equal. apply IH. exact Heven.
Qed.

(** C7. [readUnicodeString] on the three bytes [E2 82 AC] and on the two
    bytes [E2 82]: the odd trailing byte [AC] is read by [utf8.DecodeRune],
    which is given the buffer from the start of the unit to its end and
    takes the byte as the third of a three-byte encoding.  With the byte
    the result is the encoding of U+20AC, without it that of U+FFFD. *)
Theorem readUnicodeString_trailing_byte_read :
  readUnicodeString ([xe2; x82] ++ [xac]) = Returns [xe2; x82; xac] /\
  readUnicodeString [xe2; x82] = Returns [xef; xbf; xbd] /\
  readUnicodeString ([xe2; x82] ++ [xac]) <> readUnicodeString [xe2; x82].
Proof.
  assert (H3 : readUnicodeString ([xe2; x82] ++ [xac]) = Returns [xe2; x82; xac])
    by reflexivity.
  assert (H2 : readUnicodeString [xe2; x82] = Returns [xef; xbf; xbd])
    by reflexivity.
  split; [exact H3|]. split; [exact H2|].
  rewrite H3, H2. intros H. discriminate H.
Qed.

(* ------------------------------------------------------------------ *)
(** ** readStringData *)

Lemma contentLen_unicode (size : Z) : contentLen size true = (2 * size) mod 2 ^ 16.
Proof.
  unfold contentLen, uint16, wrapU. rewrite Z.mul_comm. reflexivity.
Qed.

(** [readStringData] with the double-byte flag, a declared length below
    [2^15] and fewer than twice that many bytes after the length field: the
    content slice has twice the declared length and the function returns
    the "read bytes" error with an empty string. *)
Theorem readStringData_unicode_short (alloc : allocator)
    (prefix content : list byte) :
  len prefix = 2 -> leDecode prefix < 2 ^ 15 ->
  len content < 2 * leDecode prefix ->
  contentLen (leDecode prefix) true = 2 * leDecode prefix /\
  exists e, (e = io_EOF \/ e = io_ErrUnexpectedEOF) /\
            fst (readStringData alloc (prefix ++ content) true)
            = Returns ([], Some (errStringBytes e)).
Proof.
  intros Hlen Hsmall Hshort.
  pose proof (leDecode_bound prefix) as Hb.
  assert (Hcl : contentLen (leDecode prefix) true = 2 * leDecode prefix).
  { rewrite contentLen_unicode. apply Z.mod_small. lia. }
  split; [exact Hcl|].
  unfold readStringData, readStringDataBody, binary_Read.
  rewrite ReadFull_exact by assumption. rewrite Hcl.
  rewrite make_small by lia.
  rewrite len_repeat_x00 by lia.
  destruct (ReadFull_short content (2 * leDecode prefix) Hshort) as (e & r' & Hr & He).
  rewrite Hr. exists e. split; [exact He|reflexivity].
Qed.

Lemma readStringData_unicode_short_witness :
  contentLen 3 true = 6 /\
  exists e, (e = io_EOF \/ e = io_ErrUnexpectedEOF) /\
            fst (readStringData unlimited [x03; x00; x41; x00; x42; x00; x43] true)
            = Returns ([], Some (errStringBytes e)).
Proof.
  apply (readStringData_unicode_short unlimited [x03; x00] [x41; x00; x42; x00; x43]).
  - reflexivity.
  - vm_compute. reflexivity.
  - vm_compute. reflexivity.
Defined.

(** C4. [readStringData] with the double-byte flag on a length field that
    declares 32769: the doubling is done in 16 bits and gives 2 instead of
    65538, so two content bytes are read and the stream, which offers two
    bytes after the length field, yields the string "A" and no error. *)
Theorem readStringData_doubling_wraps (alloc : allocator) :
  leDecode [x01; x80] = 32769 /\
  contentLen 32769 true = 2 /\
  readStringData alloc [x01; x80; x41; x00] true = (Returns ([x41], None), []).
Proof.
  repeat split.
Qed.

(* ------------------------------------------------------------------ *)
(** ** bitMaskuint32 and toInt32 *)

Lemma bit_of_shiftr (b n : Z) :
  0 <= n -> (Z.land (Z.shiftr b n) 1 =? 1) = Z.testbit b n.
Proof.
  intros Hn. change 1 with (Z.ones 1) at 1. rewrite Z.land_ones by lia.
  change (2 ^ 1) with 2. rewrite <- Z.bit0_eqb.
  rewrite Z.shiftr_spec by lia. reflexivity.
Qed.

(** [bitMaskuint32] returns bit [n] of its argument for every [n] from 0 to
    31, and panics with the message of the source for every other index. *)
Theorem bitMaskuint32_spec (b n m : Z) :
  0 <= n <= 31 -> m < 0 \/ 31 < m ->
  bitMaskuint32 b n = Returns (Z.testbit b n) /\
  bitMaskuint32 b m = Panics (PanicString ("invalid bit number, got " ++ fmt_d m)).
Proof.
  intros Hn Hm. unfold bitMaskuint32. split.
  - zb_false (n <? 0). zb_false (31 <? n). cbn [orb].
    rewrite uint64_id by (unfold isUint64; lia).
    rewrite bit_of_shiftr by lia. reflexivity.
  - destruct Hm as [Hm|Hm].
    + zb_true (m <? 0). reflexivity.
    + zb_true (31 <? m). rewrite orb_true_r. reflexivity.
Qed.

Lemma bitMaskuint32_spec_witness :
  bitMaskuint32 10 1 = Returns (Z.testbit 10 1) /\
  bitMaskuint32 10 32 = Panics (PanicString "invalid bit number, got 32").
Proof.
  apply (bitMaskuint32_spec 10 1 32); lia.
Defined.

Lemma int32_id (z : Z) : - 2 ^ 31 <= z < 2 ^ 31 -> int32 z = z.
Proof.
  intros Hz. unfold int32, wrapS. change (2 ^ (32 - 1)) with (2 ^ 31).
  rewrite Z.mod_small; lia.
Qed.

Lemma toInt32_value (h l : byte) : toInt32 h l = byteZ h + 256 * byteZ l.
Proof.
  unfold toInt32. pose proof (byteZ_range h) as Hh. pose proof (byteZ_range l) as Hl.
  rewrite (int32_id (byteZ l)) by lia. rewrite (int32_id (byteZ h)) by lia.
  rewrite Z.shiftl_mul_pow2 by lia. rewrite int32_id by lia.
  rewrite Z.lor_comm. rewrite <- Z.shiftl_mul_pow2 by lia.
  rewrite lor_shiftl_add by lia. lia.
Qed.

(** [toInt32(h, l)] is the 16-bit value whose low byte is its first
    argument and whose high byte is its second: it lies between 0 and
    65535 and equals what [uint16Little] decodes from the two bytes in that
    order. *)
Theorem toInt32_little_endian :
  forall h l : byte,
    toInt32 h l = byteZ h + 256 * byteZ l /\
    0 <= toInt32 h l < 2 ^ 16 /\
    uint16Little [h; l] = Returns (toInt32 h l).
Proof.
  intros h l. rewrite toInt32_value.
  pose proof (byteZ_range h) as Hh. pose proof (byteZ_range l) as Hl.
  split; [reflexivity|]. split; [lia|].
  unfold uint16Little. cbn [firstn leDecode].
  change (len [h; l] <? 2) with false. cbv iota. f_equal. lia.
Qed.

(* ------------------------------------------------------------------ *)
(** ** The decoders on longer buffers *)

Lemma firstn_length_Z {A : Type} (n : nat) (b : list A) :
  Z.of_nat n <= len b -> length (firstn n b) = n.
Proof.
  intros H. rewrite length_firstn. unfold len in H. lia.
Qed.

(** On a buffer of at least 2, 4 or 8 bytes, [uint16Little], [uint32Little]
    and [uint64Little] return a value of their type that depends on the
    first 2, 4 or 8 bytes only, and [uint16Byte], [uint32Byte] and
    [uint64Byte] of that value give these bytes back. *)
Theorem little_decode_encode (b16 b32 b64 : list byte) :
  2 <= len b16 -> 4 <= len b32 -> 8 <= len b64 ->
  (exists v, uint16Little b16 = Returns v /\ 0 <= v < 2 ^ 16 /\
             uint16Little (firstn 2 b16) = Returns v /\ uint16Byte v = firstn 2 b16) /\
  (exists v, uint32Little b32 = Returns v /\ 0 <= v < 2 ^ 32 /\
             uint32Little (firstn 4 b32) = Returns v /\ uint32Byte v = firstn 4 b32) /\
  (exists v, uint64Little b64 = Returns v /\ 0 <= v < 2 ^ 64 /\
             uint64Little (firstn 8 b64) = Returns v /\ uint64Byte v = firstn 8 b64).
Proof.
  intros H16 H32 H64.
  assert (Hgen : forall (n : nat) (b : list byte), Z.of_nat n <= len b ->
            0 <= leDecode (firstn n b) < 256 ^ Z.of_nat n /\
            len (firstn n b) = Z.of_nat n /\
            firstn n (firstn n b) = firstn n b /\
            leEncode n (leDecode (firstn n b)) = firstn n b).
  { intros n b Hb. pose proof (firstn_length_Z n b Hb) as Hl.
    pose proof (leDecode_bound (firstn n b)) as Hbd. unfold len in Hbd at 1.
    rewrite Hl in Hbd. split; [exact Hbd|]. split; [unfold len; lia|].
    split; [rewrite firstn_firstn, Nat.min_id; reflexivity|].
    rewrite <- Hl at 1. apply leEncode_leDecode. }
  split; [|split].
  - destruct (Hgen 2%nat b16 H16) as (Hr & Hl & Hf & He).
    exists (leDecode (firstn 2 b16)). unfold uint16Little, uint16Byte.
    rewrite Hl, Hf. zb_false (len b16 <? 2). cbn [Z.of_nat Pos.of_succ_nat Pos.succ Z.ltb Z.compare Pos.compare Pos.compare_cont].
    repeat split; try reflexivity; try exact He; change (2 ^ 16) with (256 ^ 2); lia.
  - destruct (Hgen 4%nat b32 H32) as (Hr & Hl & Hf & He).
    exists (leDecode (firstn 4 b32)). unfold uint32Little, uint32Byte.
    rewrite Hl, Hf. zb_false (len b32 <? 4). cbn [Z.of_nat Pos.of_succ_nat Pos.succ Z.ltb Z.compare Pos.compare Pos.compare_cont].
    repeat split; try reflexivity; try exact He; change (2 ^ 32) with (256 ^ 4); lia.
  - destruct (Hgen 8%nat b64 H64) as (Hr & Hl & Hf & He).
    exists (leDecode (firstn 8 b64)). unfold uint64Little, uint64Byte.
    rewrite Hl, Hf. zb_false (len b64 <? 8). cbn [Z.of_nat Pos.of_succ_nat Pos.succ Z.ltb Z.compare Pos.compare Pos.compare_cont].
    repeat split; try reflexivity; try exact He; change (2 ^ 64) with (256 ^ 8); lia.
Qed.

Lemma little_decode_encode_witness :
  (exists v, uint16Little [x34; x12; xff] = Returns v /\ 0 <= v < 2 ^ 16 /\
             uint16Little (firstn 2 [x34; x12; xff]) = Returns v /\
             uint16Byte v = firstn 2 [x34; x12; xff]) /\
  (exists v, uint32Little [x01; x02; x03; x04; xff] = Returns v /\ 0 <= v < 2 ^ 32 /\
             uint32Little (firstn 4 [x01; x02; x03; x04; xff]) = Returns v /\
             uint32Byte v = firstn 4 [x01; x02; x03; x04; xff]) /\
  (exists v, uint64Little [x01; x02; x03; x04; x05; x06; x07; x08; xff] = Returns v /\
             0 <= v < 2 ^ 64 /\
             uint64Little (firstn 8 [x01; x02; x03; x04; x05; x06; x07; x08; xff]) = Returns v /\
             uint64Byte v = firstn 8 [x01; x02; x03; x04; x05; x06; x07; x08; xff]).
Proof.
  apply (little_decode_encode [x34; x12; xff] [x01; x02; x03; x04; xff]
           [x01; x02; x03; x04; x05; x06; x07; x08; xff]); vm_compute; discriminate.
Defined.

(* ------------------------------------------------------------------ *)
(** ** ReadBytes: what a returned result can be *)

Lemma int_high (z : Z) : 2 ^ 63 <= z < 2 ^ 64 -> int z = z - 2 ^ 64.
Proof.
  intros Hz. unfold int, wrapS. change (2 ^ (64 - 1)) with (2 ^ 63).
  replace (z + 2 ^ 63) with (z - 2 ^ 63 + 1 * 2 ^ 64) by lia.
  rewrite Z.mod_add by lia. rewrite Z.mod_small by lia. lia.
Qed.

Lemma int_sum_nonneg (offset num : Z) :
  isInt offset -> isInt num -> 0 <= offset -> 0 <= int (offset + num) ->
  int (offset + num) = offset + num.
Proof.
  unfold isInt. intros Ho Hn Hpos Hres.
  destruct (Z_lt_ge_dec (offset + num) (2 ^ 63)) as [Hlt|Hge].
  - apply int_id. unfold isInt. lia.
  - rewrite int_high in Hres by lia. lia.
Qed.

Lemma slice_inv {A : Type} (b s : list A) (lo hi : Z) :
  slice b lo hi = Returns s ->
  0 <= lo <= hi /\ hi <= len b /\
  s = firstn (Z.to_nat (hi - lo)) (skipn (Z.to_nat lo) b).
Proof.
  unfold slice. intros H.
  destruct (0 <=? lo) eqn:E1; [|discriminate H].
  destruct (lo <=? hi) eqn:E2; [|discriminate H].
  destruct (hi <=? len b) eqn:E3; [|discriminate H].
  apply Z.leb_le in E1, E2, E3. cbn [andb] in H.
  injection H as H. split; [lia|]. split; [lia|]. symmetry. exact H.
Qed.

(** Whenever [ReadBytes] returns, for any [int] arguments: the count is the
    length of the returned slice, it is at most [num] (0 when [num] is
    negative), and the slice is the part of the buffer that starts at
    [offset] and has that length, which lies inside the buffer. *)
Theorem ReadBytes_returns_within (b out : list byte) (offset num n : Z) :
  isInt offset -> isInt num ->
  ReadBytes b offset num = Returns (out, n) ->
  n = len out /\ 0 <= n <= Z.max 0 num /\
  out = firstn (Z.to_nat n) (skipn (Z.to_nat offset) b) /\
  (n = 0 \/ (0 <= offset /\ offset + n <= len b)).
Proof.
  intros Ho Hn H. unfold ReadBytes in H. pose proof (len_nonneg b) as Hb.
  destruct (len b <=? offset) eqn:E1.
  - injection H as <- <-.
    split; [reflexivity|]. split; [lia|]. split; [reflexivity|left; reflexivity].
  - apply Z.leb_gt in E1.
    destruct (len b <=? int (offset + num)) eqn:E2.
    + apply Z.leb_le in E2. unfold sliceFrom in H.
      destruct (slice b offset (len b)) as [s|p|f] eqn:Es; try discriminate H.
      cbn [bind] in H. injection H as <- <-.
      apply slice_inv in Es. destruct Es as (Hlo & _ & Hs).
      assert (Hsum : int (offset + num) = offset + num)
        by (apply int_sum_nonneg; try assumption; lia).
      assert (Hlen : len s = len b - offset).
      { rewrite Hs. unfold len. rewrite length_firstn, length_skipn.
        unfold len in *. lia. }
      split; [reflexivity|]. split; [lia|]. split; [|right; lia].
      rewrite Hlen. rewrite <- Hs. reflexivity.
    + apply Z.leb_gt in E2.
      destruct (slice b offset (int (offset + num))) as [s|p|f] eqn:Es;
        try discriminate H.
      cbn [bind] in H. injection H as <- <-.
      apply slice_inv in Es. destruct Es as (Hlo & Hhi & Hs).
      assert (Hsum : int (offset + num) = offset + num)
        by (apply int_sum_nonneg; try assumption; lia).
      rewrite Hsum in *.
      replace (offset + num - offset) with num in Hs by lia.
      assert (Hlen : len s = num).
      { rewrite Hs. unfold len. rewrite length_firstn, length_skipn.
        unfold len in *. lia. }
      split; [lia|]. split; [lia|]. split; [exact Hs|right; lia].
Qed.

Lemma ReadBytes_returns_within_witness :
  5 = len [x05; x06; x07; x08; x09] /\ 0 <= 5 <= Z.max 0 100 /\
  [x05; x06; x07; x08; x09]
  = firstn (Z.to_nat 5)
      (skipn (Z.to_nat 5) [x00; x01; x02; x03; x04; x05; x06; x07; x08; x09]) /\
  (5 = 0 \/ (0 <= 5 /\ 5 + 5 <= len [x00; x01; x02; x03; x04; x05; x06; x07; x08; x09])).
Proof.
  apply (ReadBytes_returns_within [x00; x01; x02; x03; x04; x05; x06; x07; x08; x09]
           [x05; x06; x07; x08; x09] 5 100 5).
  - unfold isInt. lia.
  - unfold isInt. lia.
  - reflexivity.
Defined.

(* ------------------------------------------------------------------ *)
(** ** readSection: errors, and what a result can be *)

Lemma prefixWidth_dec (sSize : Z) : {prefixWidth sSize} + {~ prefixWidth sSize}.
Proof.
  unfold prefixWidth.
  destruct (Z.eq_dec sSize 2); [left; auto|].
  destruct (Z.eq_dec sSize 4); [left; auto|].
  destruct (Z.eq_dec sSize 8); [left; auto|].
  right. intros [H|[H|H]]; contradiction.
Qed.

Lemma readSectionSize_invalid (r : Reader) (sSize : Z) :
  ~ prefixWidth sSize -> readSectionSize r sSize = (inl (errInvalidSSize sSize), r).
Proof.
  unfold prefixWidth. intros H.
  destruct sSize as [|p|p]; try reflexivity.
  do 4 (try destruct p as [p|p|]); try reflexivity; exfalso; apply H; auto.
Qed.

Lemma ReadFull_short_drained (r : Reader) (n : Z) :
  len r < n ->
  exists e, (e = io_EOF \/ e = io_ErrUnexpectedEOF) /\ ReadFull r n = (ReadErr e, []).
Proof.
  intros H. unfold ReadFull. pose proof (len_nonneg r) as Hr.
  zb_false (n <=? 0).
  destruct (len r =? 0) eqn:E.
  - apply Z.eqb_eq in E. destruct r; [|rewrite len_cons in E; pose proof (len_nonneg r); lia].
    exists io_EOF. auto.
  - zb_true (len r <? n). exists io_ErrUnexpectedEOF. auto.
Qed.

Lemma readSectionSize_short (r : Reader) (sSize : Z) :
  prefixWidth sSize -> len r < sSize ->
  exists e, (e = io_EOF \/ e = io_ErrUnexpectedEOF) /\
            readSectionSize r sSize = (inl (errReadSize sSize e), []).
Proof.
  intros Hw Hlen.
  destruct (ReadFull_short_drained r sSize Hlen) as (e & He & Hr).
  exists e. split; [exact He|].
  unfold readSectionSize, binary_Read.
  destruct Hw as [Hw|[Hw|Hw]]; rewrite Hw in *; rewrite Hr; reflexivity.
Qed.

Lemma ReadFull_inv (r r' bs : list byte) (n : Z) :
  ReadFull r n = (ReadOk bs, r') -> r = bs ++ r' /\ len bs = Z.max 0 n.
Proof.
  unfold ReadFull. intros H.
  destruct (n <=? 0) eqn:E0.
  - apply Z.leb_le in E0. injection H as <- <-. split; [reflexivity|]. cbn. lia.
  - apply Z.leb_gt in E0.
    destruct (len r =? 0); [discriminate H|].
    destruct (len r <? n) eqn:E2; [discriminate H|].
    apply Z.ltb_ge in E2. injection H as <- <-.
    split; [symmetry; apply firstn_skipn|].
    unfold len in *. rewrite length_firstn. lia.
Qed.

Lemma make_inv (alloc : allocator) (n : Z) (t : list byte) :
  isUint64 n -> make alloc n = Returns t -> n <= maxAlloc /\ len t = n.
Proof.
  unfold isUint64. intros Hn H.
  destruct (Z_le_gt_dec n maxAlloc) as [Hle|Hgt].
  - unfold make in H. rewrite int_id in H by (unfold isInt, maxAlloc in *; lia).
    destruct ((n <? 0) || (maxAlloc <? n)); [discriminate H|].
    destruct (granted alloc n); [|discriminate H].
    injection H as <-. split; [exact Hle|]. apply len_repeat_x00. lia.
  - rewrite make_panics in H by (unfold isUint64; lia). discriminate H.
Qed.

Lemma split_at {A : Type} (r : list A) (n : Z) :
  0 <= n <= len r -> exists pre rest, r = pre ++ rest /\ len pre = n.
Proof.
  intros H. exists (firstn (Z.to_nat n) r), (skipn (Z.to_nat n) r).
  split; [symmetry; apply firstn_skipn|].
  unfold len in *. rewrite length_firstn. lia.
Qed.

(** A width other than 2, 4 or 8: [readSection] returns the "invalid sSize"
    error that names the width, with no data and no reader, and has read
    nothing from the input. *)
Theorem readSection_invalid_width (alloc : allocator) (r : Reader)
    (sSize maxSize : Z) :
  ~ prefixWidth sSize ->
  readSection alloc r sSize maxSize
  = (Returns ([], None, 0,
              Some ("golnk.readSection: invalid sSize - got " ++ fmt_d sSize)%string),
     r).
Proof.
  intros H. unfold readSection. rewrite readSectionSize_invalid by assumption.
  reflexivity.
Qed.

Lemma readSection_invalid_width_witness :
  readSection unlimited [x0c; x00; x00] 3 100
  = (Returns ([], None, 0, Some "golnk.readSection: invalid sSize - got 3"%string),
     [x0c; x00; x00]).
Proof.
  apply (readSection_invalid_width unlimited [x0c; x00; x00] 3 100).
  unfold prefixWidth. lia.
Defined.

(** An input that ends before the size field is complete: [readSection]
    returns the "read size" error that names the width and the end-of-input
    error, with no data and no reader, and the input is drained. *)
Theorem readSection_short_prefix (alloc : allocator) (r : Reader)
    (sSize maxSize : Z) :
  prefixWidth sSize -> len r < sSize ->
  exists e, (e = io_EOF \/ e = io_ErrUnexpectedEOF) /\
    readSection alloc r sSize maxSize
    = (Returns ([], None, 0,
                Some ("golnk.readSection: read size " ++ fmt_d sSize
                      ++ " bytes - " ++ e)%string),
       []).
Proof.
  intros Hw Hlen.
  destruct (ReadFull_short_drained r sSize Hlen) as (e & He & Hr).
  exists e. split; [exact He|].
  unfold readSection, readSectionSize, binary_Read.
  destruct Hw as [Hw|[Hw|Hw]]; rewrite Hw in *; rewrite Hr; reflexivity.
Qed.

Lemma readSection_short_prefix_witness :
  exists e, (e = io_EOF \/ e = io_ErrUnexpectedEOF) /\
    readSection unlimited [x0c; x00; x00] 4 100
    = (Returns ([], None, 0,
                Some ("golnk.readSection: read size " ++ fmt_d 4
                      ++ " bytes - " ++ e)%string),
       []).
Proof.
  apply (readSection_short_prefix unlimited [x0c; x00; x00] 4 100).
  - right. left. reflexivity.
  - vm_compute. reflexivity.
Defined.

(** An input that holds the size field but ends before the payload is
    complete, the payload size being within the ceiling and the allocation
    limit and the runtime granting the memory for the payload buffer, which
    is allocated before the payload is read: [readSection] returns the
    "read section" error that names the payload size, no reader, and as data
    the bytes of the size field alone; the input is drained. *)
Theorem readSection_short_payload (alloc : allocator) (sSize maxSize : Z)
    (prefix rest : list byte) :
  prefixWidth sSize -> len prefix = sSize ->
  computedSize (leDecode prefix) sSize <= maxSize ->
  computedSize (leDecode prefix) sSize <= maxAlloc ->
  granted alloc (computedSize (leDecode prefix) sSize) = true ->
  len rest < computedSize (leDecode prefix) sSize ->
  exists e, (e = io_EOF \/ e = io_ErrUnexpectedEOF) /\
    readSection alloc (prefix ++ rest) sSize maxSize
    = (Returns (prefix, None, 0,
                Some ("golnk.readSection: read section "
                      ++ fmt_d (computedSize (leDecode prefix) sSize)
                      ++ " bytes - " ++ e)%string),
       []).
Proof.
  intros Hw Hlen Hmax Halloc Hgranted Hshort.
  pose proof (len_nonneg rest) as Hr.
  destruct (ReadFull_short_drained rest _ Hshort) as (e & He & Hread).
  exists e. split; [exact He|].
  rewrite readSection_after_size by assumption. cbv zeta.
  zb_false (maxSize <? computedSize (leDecode prefix) sSize).
  rewrite make_ok by (assumption || lia). rewrite len_repeat_x00 by lia.
  unfold binary_Read. rewrite Hread. reflexivity.
Qed.

Lemma readSection_short_payload_witness :
  exists e, (e = io_EOF \/ e = io_ErrUnexpectedEOF) /\
    readSection unlimited ([x0c; x00; x00; x00] ++ [x01; x02; x03]) 4 100
    = (Returns ([x0c; x00; x00; x00], None, 0,
                Some ("golnk.readSection: read section "
                      ++ fmt_d (computedSize (leDecode [x0c; x00; x00; x00]) 4)
                      ++ " bytes - " ++ e)%string),
       []).
Proof.
  apply (readSection_short_payload unlimited 4 100 [x0c; x00; x00; x00]
           [x01; x02; x03]).
  - right. left. reflexivity.
  - reflexivity.
  - vm_compute. discriminate.
  - vm_compute. discriminate.
  - reflexivity.
  - vm_compute. reflexivity.
Defined.

(** Every result [readSection] returns is either a success, with a reader
    and no error, or a failure, with an error, no reader and the size 0. *)
Theorem readSection_result_shape (alloc : allocator) :
  forall (r r' : Reader) (sSize maxSize : Z) (data : list byte)
         (nr : option Reader) (size : Z) (err : error),
    readSection alloc r sSize maxSize = (Returns (data, nr, size, err), r') ->
    (err = None /\ nr <> None) \/ (err <> None /\ nr = None /\ size = 0).
Proof.
  intros r r' sSize maxSize data nr size err H. unfold readSection in H.
  destruct (readSectionSize r sSize) as [[msg|[ss d]] r1].
  - injection H as <- <- <- <- <-. right. repeat split. discriminate.
  - destruct (maxSize <? computedSize ss sSize).
    + injection H as <- <- <- <- <-. right. repeat split. discriminate.
    + destruct (make alloc (computedSize ss sSize)) as [t|p|f]; try discriminate H.
      destruct (binary_Read r1 (len t)) as [[bs|e] r2].
      * injection H as <- <- <- <- <-. left. split; [reflexivity|discriminate].
      * injection H as <- <- <- <- <-. right. repeat split. discriminate.
Qed.

Lemma readSection_result_shape_witness :
  (@None string = None /\ Some [x01; x02] <> @None Reader) \/
  (@None string <> None /\ Some [x01; x02] = @None Reader /\ 4 = 0).
Proof.
  apply (readSection_result_shape unlimited [x04; x00; x01; x02; x03] [x03] 2 100
           [x04; x00; x01; x02] (Some [x01; x02]) 4 None).
  reflexivity.
Defined.

(** Whenever [readSection] returns a reader: the width is 2, 4 or 8, there
    is no error, the data returned is exactly what was read from the input,
    it is the size field followed by the bytes of the reader, the size
    returned is the declared size and the length of the data, and the
    payload is within the ceiling and the allocation limit. *)
Theorem readSection_success_inv (alloc : allocator) :
  forall (r r' : Reader) (sSize maxSize : Z) (data nr : list byte)
         (size : Z) (err : error),
    readSection alloc r sSize maxSize = (Returns (data, Some nr, size, err), r') ->
    prefixWidth sSize /\ err = None /\ r = data ++ r' /\
    (exists prefix, len prefix = sSize /\ data = prefix ++ nr /\ size = leDecode prefix) /\
    size = len data /\ len nr <= maxSize /\ len nr <= maxAlloc.
Proof.
  intros r r' sSize maxSize data nr size err H.
  destruct (prefixWidth_dec sSize) as [Hw|Hw].
  2:{ unfold readSection in H. rewrite readSectionSize_invalid in H by assumption.
      discriminate H. }
  destruct (Z_lt_ge_dec (len r) sSize) as [Hshort|Hlong].
  { destruct (readSectionSize_short r sSize Hw Hshort) as (e & _ & He).
    unfold readSection in H. rewrite He in H. discriminate H. }
  destruct (split_at r sSize) as (prefix & rest & -> & Hlen).
  { unfold prefixWidth in Hw. lia. }
  rewrite readSection_after_size in H by assumption. cbv zeta in H.
  assert (Hd : isUint64 (leDecode prefix)).
  { apply leDecode_uint64. unfold prefixWidth in Hw. lia. }
  assert (Hcu : isUint64 (computedSize (leDecode prefix) sSize)).
  { unfold isUint64, computedSize, uint64 at 1, wrapU. apply Z.mod_pos_bound. lia. }
  destruct (maxSize <? computedSize (leDecode prefix) sSize) eqn:Emax; [discriminate H|].
  apply Z.ltb_ge in Emax.
  destruct (make alloc (computedSize (leDecode prefix) sSize)) as [t|p|f] eqn:Emake;
    try discriminate H.
  apply make_inv in Emake; [|exact Hcu]. destruct Emake as [Halloc Ht].
  unfold binary_Read in H.
  destruct (ReadFull rest (len t)) as [[bs|e] r2] eqn:Eread; [|discriminate H].
  apply ReadFull_inv in Eread. destruct Eread as [-> Hbs].
  injection H as <- <- <- <- <-.
  assert (Hge : sSize <= leDecode prefix).
  { destruct (Z_le_gt_dec sSize (leDecode prefix)) as [Hle|Hgt]; [exact Hle|exfalso].
    rewrite computedSize_underflow in Halloc by (try assumption; lia).
    unfold maxAlloc, prefixWidth, isUint64 in *. lia. }
  rewrite computedSize_no_underflow in * by assumption.
  assert (Hnr : len bs = leDecode prefix - sSize) by lia.
  assert (Hint : int (leDecode prefix) = leDecode prefix).
  { apply int_id. unfold isInt, maxAlloc, prefixWidth in *. lia. }
  split; [exact Hw|]. split; [reflexivity|].
  split; [rewrite app_assoc; reflexivity|].
  split; [exists prefix; rewrite Hint; auto|].
  rewrite Hint, len_app. split; [lia|]. split; lia.
Qed.

Lemma readSection_success_inv_witness :
  prefixWidth 2 /\ @None string = None /\
  [x04; x00; x01; x02; x03] = [x04; x00; x01; x02] ++ [x03] /\
  (exists prefix, len prefix = 2 /\ [x04; x00; x01; x02] = prefix ++ [x01; x02] /\
                  4 = leDecode prefix) /\
  4 = len [x04; x00; x01; x02] /\ len [x01; x02] <= 100 /\ len [x01; x02] <= maxAlloc.
Proof.
  apply (readSection_success_inv unlimited [x04; x00; x01; x02; x03] [x03] 2 100
           [x04; x00; x01; x02] [x01; x02] 4 None).
  reflexivity.
Defined.




(* ------------------------------------------------------------------ *)
(** ** readStringData: results and errors *)

Lemma readStringDataLoop_spec (n : nat) :
  forall (suffix pre : list byte) (bitIndex : Z) (runes : list Z),
    len pre = bitIndex * 2 ->
    n = Z.to_nat (Z.quot (len suffix) 2) ->
    readStringDataLoop (pre ++ suffix) n bitIndex runes
    = Returns (runes ++ codeUnits suffix).
Proof.
  induction n as [|n IH]; intros suffix pre bitIndex runes Hpre Hn.
  - cbn [readStringDataLoop]. symmetry in Hn.
    destruct (half_len_short suffix Hn) as [->|[a ->]];
      cbn [codeUnits]; rewrite app_nil_r; reflexivity.
  - destruct suffix as [|a [|b rest]]; try discriminate Hn.
    rewrite half_len_step in Hn. injection Hn as Hn.
    cbn [readStringDataLoop codeUnits]. rewrite <- Hpre.
    pose proof (len_nonneg pre) as Hp. pose proof (len_nonneg rest) as Hr.
    replace (len pre + 1 <? len (pre ++ a :: b :: rest)) with true
      by (symmetry; apply Z.ltb_lt; rewrite len_app, !len_cons; lia).
    rewrite index_len_app. cbn [bind].
    assert (Hb : index (pre ++ a :: b :: rest) (len pre + 1) = Returns b).
    { replace (pre ++ a :: b :: rest) with ((pre ++ [a]) ++ b :: rest)
        by (rewrite <- app_assoc; reflexivity).
      replace (len pre + 1) with (len (pre ++ [a]))
        by (rewrite len_app, len_cons; unfold len; simpl; lia).
      apply index_len_app. }
    rewrite Hb. cbn [bind]. rewrite toInt32_value.
    replace (pre ++ a :: b :: rest) with ((pre ++ [a; b]) ++ rest)
      by (rewrite <- app_assoc; reflexivity).
    rewrite IH; [rewrite <- app_assoc; reflexivity| |exact Hn].
    rewrite len_app, !len_cons. unfold len at 2. simpl. lia.
Qed.

Lemma contentLen_range (size : Z) (isUnicode : bool) :
  0 <= size < 2 ^ 16 -> 0 <= contentLen size isUnicode < 2 ^ 16.
Proof.
  intros H. unfold contentLen. destruct isUnicode; [|exact H].
  unfold uint16, wrapU. apply Z.mod_pos_bound. lia.
Qed.

(** [readStringData] without the double-byte flag, on a length field
    followed by as many bytes as it declares: the string is those bytes as
    they are, zero bytes included, there is no error, and the input is left
    right after them. *)
Theorem readStringData_single_byte (alloc : allocator)
    (prefix content rest : list byte) :
  len prefix = 2 -> len content = leDecode prefix ->
  readStringData alloc (prefix ++ content ++ rest) false
  = (Returns (content, None), rest).
Proof.
  intros Hlen Hcontent.
  pose proof (leDecode_bound prefix) as Hb. rewrite Hlen in Hb.
  unfold readStringData, readStringDataBody, binary_Read.
  rewrite ReadFull_exact by assumption. unfold contentLen.
  rewrite make_small by lia.
  rewrite len_repeat_x00 by lia.
  rewrite ReadFull_exact by assumption. reflexivity.
Qed.

Lemma readStringData_single_byte_witness :
  readStringData unlimited ([x03; x00] ++ [x41; x00; x42] ++ [x43]) false
  = (Returns ([x41; x00; x42], None), [x43]).
Proof.
  apply (readStringData_single_byte unlimited [x03; x00] [x41; x00; x42] [x43]);
    reflexivity.
Defined.

(** [readStringData] with the double-byte flag, on a length field that
    declares fewer than [2^15] units followed by twice as many bytes: the
    string is the UTF-8 form of the little-endian 16-bit units of these
    bytes, one code point for each unit, there is no error, and the input is
    left right after them. *)
Theorem readStringData_unicode (alloc : allocator)
    (prefix content rest : list byte) :
  len prefix = 2 -> leDecode prefix < 2 ^ 15 ->
  len content = 2 * leDecode prefix ->
  readStringData alloc (prefix ++ content ++ rest) true
  = (Returns (utf8.stringOfRunes (codeUnits content), None), rest).
Proof.
  intros Hlen Hsmall Hcontent.
  pose proof (leDecode_bound prefix) as Hb.
  assert (Hcl : contentLen (leDecode prefix) true = len content).
  { rewrite contentLen_unicode, Hcontent. apply Z.mod_small. lia. }
  unfold readStringData, readStringDataBody, binary_Read.
  rewrite ReadFull_exact by assumption. rewrite Hcl.
  rewrite make_small by lia.
  rewrite len_repeat_x00 by lia.
  rewrite ReadFull_exact by reflexivity.
  rewrite int_id by (unfold isInt; lia).
  rewrite (readStringDataLoop_spec _ content [] 0 []); reflexivity.
Qed.

Lemma readStringData_unicode_witness :
  readStringData unlimited ([x02; x00] ++ [x41; x00; xe9; x00] ++ [x43]) true
  = (Returns ([x41; xc3; xa9], None), [x43]).
Proof.
  apply (readStringData_unicode unlimited [x02; x00] [x41; x00; xe9; x00] [x43]).
  - reflexivity.
  - vm_compute. reflexivity.
  - reflexivity.
Defined.

(** [readStringData] on an input that ends before the two bytes of the
    length field: the "read size" error with the end-of-input error, an
    empty string, and the input drained, with or without the double-byte
    flag. *)
Theorem readStringData_short_length (alloc : allocator) (r : Reader)
    (isUnicode : bool) :
  len r < 2 ->
  exists e, (e = io_EOF \/ e = io_ErrUnexpectedEOF) /\
    readStringData alloc r isUnicode
    = (Returns ([], Some ("golnk.readStringData: read size - " ++ e)%string), []).
Proof.
  intros H. destruct (ReadFull_short_drained r 2 H) as (e & He & Hr).
  exists e. split; [exact He|].
  unfold readStringData, readStringDataBody, binary_Read. rewrite Hr. reflexivity.
Qed.

Lemma readStringData_short_length_witness :
  exists e, (e = io_EOF \/ e = io_ErrUnexpectedEOF) /\
    readStringData unlimited [x03] true
    = (Returns ([], Some ("golnk.readStringData: read size - " ++ e)%string), []).
Proof.
  apply (readStringData_short_length unlimited [x03] true). vm_compute. reflexivity.
Defined.

(** The body of [readStringData] never panics, on any input and with either
    flag, so the deferred [recover] never runs: [readStringData] returns the
    result of the body, and its error is never the "not enough bytes in
    reader" error.  The buffer it asks for has fewer than 2^16 bytes, a
    request that is granted ([smallRequest]), so it does not stop on the
    allocation either. *)
Theorem readStringData_never_recovers (alloc : allocator) :
  forall (r : Reader) (isUnicode : bool),
    exists res r',
      readStringDataBody alloc r isUnicode = (Returns res, r') /\
      readStringData alloc r isUnicode = (Returns res, r') /\
      snd res <> Some errStringRecovered.
Proof.
  intros r isUnicode.
  assert (Hbody : exists res r', readStringDataBody alloc r isUnicode = (Returns res, r') /\
                    snd res <> Some errStringRecovered).
  { unfold readStringDataBody, binary_Read.
    destruct (ReadFull r 2) as [[bs|e] r1] eqn:E1.
    2:{ eexists; eexists; split; [reflexivity|]. cbn [snd].
        unfold errStringSize, errStringRecovered. cbn [append]. intros H. discriminate H. }
    apply ReadFull_inv in E1. destruct E1 as [_ Hbs].
    pose proof (leDecode_bound bs) as Hb. rewrite Hbs in Hb. change (Z.max 0 2) with 2 in Hb.
    assert (Hsz : 0 <= contentLen (leDecode bs) isUnicode < 2 ^ 16)
      by (apply contentLen_range; lia).
    rewrite make_small by lia.
    rewrite len_repeat_x00 by lia.
    destruct (ReadFull r1 (contentLen (leDecode bs) isUnicode)) as [[b|e] r2] eqn:E2.
    2:{ eexists; eexists; split; [reflexivity|]. cbn [snd].
        unfold errStringBytes, errStringRecovered. cbn [append]. intros H. discriminate H. }
    apply ReadFull_inv in E2. destruct E2 as [_ Hlb].
    destruct isUnicode.
    - rewrite int_id by (unfold isInt; lia).
      replace (contentLen (leDecode bs) true) with (len b) by lia.
      rewrite (readStringDataLoop_spec _ b [] 0 []) by reflexivity.
      cbn [bind]. eexists; eexists; split; [reflexivity|]. cbn [snd]. discriminate.
    - eexists; eexists; split; [reflexivity|]. cbn [snd]. discriminate. }
  destruct Hbody as (res & r' & Hb & Hne).
  exists res, r'. split; [exact Hb|]. split; [|exact Hne].
  unfold readStringData. rewrite Hb. reflexivity.
Qed.

(* ------------------------------------------------------------------ *)
(** ** readUnicodeString on two-byte text *)

Lemma readUnicodeString_runes (data : list byte) :
  readUnicodeString data = Returns (utf8.stringOfRunes (unicodeRunes data)).
Proof.
  unfold readUnicodeString.
  rewrite (readUnicodeStringLoop_spec _ data [] 0 []); reflexivity.
Qed.

Lemma byteZ_x00 (c : byte) : 0 < byteZ c -> Byte.eqb c x00 = false.
Proof.
  intros H. destruct (Byte.eqb c x00) eqn:E; [|reflexivity].
  apply byte_eqb_x00 in E. subst c. cbn in H. lia.
Qed.

Lemma DecodeRune_ascii (c : byte) (rest : list byte) :
  byteZ c < 0x80 -> utf8.DecodeRune (c :: rest) = (byteZ c, 1).
Proof.
  intros H. unfold utf8.DecodeRune, utf8.first.
  zb_true (byteZ c <? 128). reflexivity.
Qed.

Lemma encoderune_ascii (c : byte) :
  byteZ c < 0x80 -> utf8.encoderune (byteZ c) = [c].
Proof.
  intros H. pose proof (byteZ_range c) as Hc. unfold utf8.encoderune.
  unfold uint32, wrapU. rewrite Z.mod_small by lia.
  zb_true (byteZ c <=? 127). rewrite toByte_byteZ. reflexivity.
Qed.

Lemma unicodeRunes_widen (text tail : list byte) :
  Forall (fun c => 0 < byteZ c < 0x80) text ->
  unicodeRunes (widen text ++ tail) = map byteZ text ++ unicodeRunes tail.
Proof.
  induction 1 as [|c text Hc Htext IH]; [reflexivity|].
  cbn [widen flat_map app unicodeRunes map].
  rewrite (byteZ_x00 c) by lia. cbn [andb].
  rewrite DecodeRune_ascii by lia. cbn [fst]. f_equal. exact IH.
Qed.

Lemma stringOfRunes_ascii (text : list byte) :
  Forall (fun c => 0 < byteZ c < 0x80) text ->
  utf8.stringOfRunes (map byteZ text) = text.
Proof.
  induction 1 as [|c text Hc Htext IH]; [reflexivity|].
  unfold utf8.stringOfRunes in *. cbn [map flat_map].
  rewrite encoderune_ascii by lia. rewrite IH. reflexivity.
Qed.

(** A text of non-zero bytes below 0x80, written with two bytes for each
    character (the byte, then a zero byte), is returned by
    [readUnicodeString] as it is, both when a pair of zero bytes and
    anything else follow it and when the buffer ends after it. *)
Theorem readUnicodeString_ascii (text rest : list byte) :
  Forall (fun c => 0 < byteZ c < 0x80) text ->
  readUnicodeString (widen text ++ x00 :: x00 :: rest) = Returns text /\
  readUnicodeString (widen text) = Returns text.
Proof.
  intros H. split.
  - rewrite readUnicodeString_runes, unicodeRunes_widen by assumption.
    cbn [unicodeRunes Byte.eqb andb]. rewrite app_nil_r.
    rewrite stringOfRunes_ascii by assumption. reflexivity.
  - rewrite <- (app_nil_r (widen text)).
    rewrite readUnicodeString_runes, unicodeRunes_widen by assumption.
    cbn [unicodeRunes]. rewrite app_nil_r.
    rewrite stringOfRunes_ascii by assumption. reflexivity.
Qed.

Lemma readUnicodeString_ascii_witness :
  readUnicodeString (widen [x41; x42] ++ x00 :: x00 :: [x43; x00]) = Returns [x41; x42] /\
  readUnicodeString (widen [x41; x42]) = Returns [x41; x42].
Proof.
  apply (readUnicodeString_ascii [x41; x42] [x43; x00]).
  repeat constructor.
Defined.

Lemma DecodeRune_high_low (a b : byte) (rest : list byte) :
  0x80 <= byteZ a -> byteZ b < 0x80 ->
  utf8.DecodeRune (a :: b :: rest) = (utf8.RuneError, 1).
Proof.
  intros Ha Hb. pose proof (byteZ_range a) as Hra. pose proof (byteZ_range b) as Hrb.
  unfold utf8.DecodeRune, utf8.first.
  zb_false (byteZ a <? 128).
  repeat match goal with
         | |- context [if ?c then _ else _] =>
             lazymatch c with
             | (byteZ a <? _) => destruct c eqn:?
             | (byteZ a =? _) => destruct c eqn:?
             end
         end;
    cbv beta iota zeta delta [Z.leb Z.eqb Z.compare Pos.compare Pos.compare_cont
                               utf8.acceptRanges Z.shiftr Z.shiftl Z.land Pos.land
                               Z.opp Z.of_N Pos.iter Z.div2 Pos.div2 N.succ_double N.double
                               Pos.Nsucc_double Pos.Ndouble
                               utf8.locb utf8.hicb];
    try reflexivity;
    match goal with
    | |- context [len (a :: b :: rest) <? ?sz] => destruct (len (a :: b :: rest) <? sz)
    end; try reflexivity;
    match goal with
    | |- context [(byteZ b <? ?lo) || _] => zb_true (byteZ b <? lo)
    end; reflexivity.
Qed.

(** A two-byte unit whose first byte is 0x80 or more and whose second byte
    is below 0x80 (every character from U+0080 to U+00FF in two-byte form
    is one) is turned by [readUnicodeString] into U+FFFD, whatever follows:
    the result is the three bytes of U+FFFD followed by the result for the
    rest of the buffer. *)
Theorem readUnicodeString_high_low_byte (a b : byte) (rest : list byte) :
  0x80 <= byteZ a -> byteZ b < 0x80 ->
  exists s, readUnicodeString rest = Returns s /\
            readUnicodeString (a :: b :: rest) = Returns ([xef; xbf; xbd] ++ s).
Proof.
  intros Ha Hb. exists (utf8.stringOfRunes (unicodeRunes rest)).
  split; [apply readUnicodeString_runes|].
  rewrite readUnicodeString_runes. cbn [unicodeRunes].
  rewrite (byteZ_x00 a) by lia. cbn [andb].
  rewrite DecodeRune_high_low by assumption. cbn [fst].
  unfold utf8.stringOfRunes. cbn [flat_map].
  change (utf8.encoderune utf8.RuneError) with [xef; xbf; xbd]. reflexivity.
Qed.

Lemma readUnicodeString_high_low_byte_witness :
  exists s, readUnicodeString [x41; x00] = Returns s /\
            readUnicodeString (xe9 :: x00 :: [x41; x00]) = Returns ([xef; xbf; xbd] ++ s).
Proof.
  apply (readUnicodeString_high_low_byte xe9 x00 [x41; x00]); vm_compute;
    [discriminate|reflexivity].
Defined.

(* ------------------------------------------------------------------ *)
(** ** uint32StrHex *)

Lemma of_pos_length (k : nat) :
  forall (p : positive) (rest : string),
    Z.pos p < 16 ^ Z.of_nat k ->
    (String.length rest + 1 <= String.length (HexString.Raw.of_pos p rest)
     <= String.length rest + k)%nat.
Proof.
  induction k as [|k IH]; intros p rest Hp.
  - cbn in Hp. lia.
  - rewrite Nat2Z.inj_succ, Z.pow_succ_r in Hp by lia.
    do 4 (try destruct p as [p|p|]);
      try (cbn [HexString.Raw.of_pos String.length]; lia);
      cbn [HexString.Raw.of_pos];
      match goal with
      | |- context [HexString.Raw.of_pos p (String ?d rest)] =>
          specialize (IH p (String d rest)); cbn [String.length] in IH
      end;
      assert (Hq : Z.pos p < 16 ^ Z.of_nat k) by lia;
      specialize (IH Hq); lia.
Qed.

Lemma even_padded (n : nat) :
  Nat.even (if negb (n mod 2 =? 0)%nat then S n else n) = true.
Proof.
  destruct (Nat.Even_or_Odd n) as [[m Hm]|[m Hm]].
  - assert (H0 : (n mod 2 = 0)%nat)
      by (rewrite Hm, Nat.mul_comm; apply Nat.Div0.mod_mul).
    rewrite H0. cbn [Nat.eqb negb]. apply Nat.even_spec. exists m. exact Hm.
  - assert (H1 : (n mod 2 = 1)%nat).
    { replace n with (1 + m * 2)%nat by lia. rewrite Nat.Div0.mod_add. reflexivity. }
    rewrite H1. cbn [Nat.eqb negb]. apply Nat.even_spec. exists (S m). lia.
Qed.

Lemma of_pos_digits (k : nat) :
  forall (p : positive) (rest : string),
    Z.pos p < 16 ^ Z.of_nat k ->
    exists d : nat,
      (1 <= d <= k)%nat /\
      String.length (HexString.Raw.of_pos p rest) = (String.length rest + d)%nat /\
      16 ^ (Z.of_nat d - 1) <= Z.pos p /\
      allLowerHex (HexString.Raw.of_pos p rest) = allLowerHex rest.
Proof.
  induction k as [|k IH]; intros p rest Hp.
  - cbn in Hp. lia.
  - rewrite Nat2Z.inj_succ, Z.pow_succ_r in Hp by lia.
    do 4 (try destruct p as [p|p|]);
      try (exists 1%nat; cbn [HexString.Raw.of_pos String.length];
           split; [lia|]; split; [lia|]; split; [cbn; lia|reflexivity]);
      cbn [HexString.Raw.of_pos];
      match goal with
      | |- context [HexString.Raw.of_pos p (String ?c rest)] =>
          destruct (IH p (String c rest)) as (d & Hd & Hl & Hlow & Hhex); [lia|];
          exists (S d); cbn [String.length] in Hl;
          split; [lia|]; split; [lia|]; split; [|exact Hhex];
          replace (Z.of_nat (S d) - 1) with (Z.succ (Z.of_nat d - 1)) by lia;
          rewrite Z.pow_succ_r by lia; lia
      end.
Qed.

(** [uint32StrHex] of a 32-bit value is "0x" followed by digits that are
    all among [0]..[9] and [a]..[f], in even number, at least two and at
    most eight; the digits are those [%x] prints, after one [0] when their
    number is odd; read as a hexadecimal number they give the value, and
    beyond two digits the string is no longer than an even number of digits
    requires. *)
Theorem uint32StrHex_spec (u : Z) :
  0 <= u < 2 ^ 32 ->
  exists digits,
    uint32StrHex u = ("0x" ++ digits)%string /\
    allLowerHex digits = true /\
    Nat.even (String.length digits) = true /\
    (2 <= String.length digits <= 8)%nat /\
    (digits = fmt_x u \/ digits = String "0" (fmt_x u)) /\
    HexString.Raw.to_N digits 0 = Z.to_N u /\
    ((2 < String.length digits)%nat ->
     16 ^ (Z.of_nat (String.length digits) - 2) <= u) /\
    HexString.to_Z (uint32StrHex u) = u.
Proof.
  intros Hu. unfold uint32StrHex. cbv zeta.
  set (str := fmt_x u).
  assert (Hstr : exists d : nat,
             (1 <= d <= 8)%nat /\ String.length str = d /\
             (u = 0 \/ 16 ^ (Z.of_nat d - 1) <= u) /\ allLowerHex str = true).
  { subst str. destruct u as [|p|p]; [|  |lia].
    - exists 1%nat. split; [lia|]. split; [reflexivity|].
      split; [left; reflexivity|reflexivity].
    - destruct (of_pos_digits 8 p ""%string) as (d & Hd & Hl & Hlow & Hhex).
      { change (16 ^ Z.of_nat 8) with (2 ^ 32). lia. }
      exists d. cbn [fmt_x]. cbn [String.length] in Hl.
      split; [exact Hd|]. split; [exact Hl|]. split; [right; exact Hlow|exact Hhex]. }
  destruct Hstr as (d & Hd & Hl & Hlow & Hhex).
  assert (Hparse : HexString.Raw.to_N str 0 = Z.to_N u).
  { subst str. destruct u as [|p|p]; [reflexivity| |lia].
    cbn [fmt_x]. rewrite HexString.Raw.to_N_of_pos. reflexivity. }
  assert (Hmono : forall a b : Z, 0 <= a <= b -> 16 ^ a <= 16 ^ b)
    by (intros a b Hab; apply Z.pow_le_mono_r; lia).
  pose proof (even_padded (String.length str)) as Heven.
  exists (if negb (String.length str mod 2 =? 0)%nat then ("0" ++ str)%string else str).
  split; [reflexivity|].
  destruct (negb (String.length str mod 2 =? 0)%nat) eqn:E.
  - cbn [append String.length] in *.
    assert (Hodd : String.length str <> 8%nat).
    { intros H8. rewrite H8 in E. discriminate E. }
    split; [cbn [allLowerHex]; rewrite Hhex; reflexivity|].
    split; [exact Heven|]. split; [lia|]. split; [right; reflexivity|].
    split; [exact Hparse|]. split.
    + intros Hlong. rewrite Hl in *. destruct Hlow as [H0|Hlow].
      * exfalso. subst u. subst str. cbn in Hl. lia.
      * apply Z.le_trans with (16 ^ (Z.of_nat d - 1)); [|exact Hlow].
        apply Hmono. lia.
    + unfold HexString.to_Z, HexString.to_N. cbn.
      change (HexString.Raw.to_N str 0 = Z.to_N u) in Hparse.
      rewrite Hparse. destruct u; try reflexivity. lia.
  - assert (Hne1 : String.length str <> 1%nat).
    { intros H1. rewrite H1 in E. discriminate E. }
    split; [exact Hhex|].
    split; [exact Heven|]. split; [lia|]. split; [left; reflexivity|].
    split; [exact Hparse|]. split.
    + intros Hlong. rewrite Hl in *. destruct Hlow as [H0|Hlow].
      * exfalso. subst u. subst str. cbn in Hl. lia.
      * apply Z.le_trans with (16 ^ (Z.of_nat d - 1)); [|exact Hlow].
        apply Hmono. lia.
    + unfold HexString.to_Z, HexString.to_N. cbn.
      rewrite Hparse. destruct u; try reflexivity. lia.
Qed.

Lemma uint32StrHex_spec_witness :
  exists digits,
    uint32StrHex 0x1AB = ("0x" ++ digits)%string /\
    allLowerHex digits = true /\
    Nat.even (String.length digits) = true /\
    (2 <= String.length digits <= 8)%nat /\
    (digits = fmt_x 0x1AB \/ digits = String "0" (fmt_x 0x1AB)) /\
    HexString.Raw.to_N digits 0 = Z.to_N 0x1AB /\
    ((2 < String.length digits)%nat ->
     16 ^ (Z.of_nat (String.length digits) - 2) <= 0x1AB) /\
    HexString.to_Z (uint32StrHex 0x1AB) = 0x1AB.
Proof.
  apply (uint32StrHex_spec 0x1AB). lia.
Defined.

(* ------------------------------------------------------------------ *)
(** ** byteMaskuint16 and uint16Byte together *)

(** The two bytes [byteMaskuint16] extracts from a 16-bit value, at index 0
    and at index 1, are the two bytes [uint16Byte] writes for it, in that
    order, and the value is the first plus 256 times the second. *)
Theorem byteMaskuint16_bytes (b : Z) :
  0 <= b < 2 ^ 16 ->
  exists lo hi,
    byteMaskuint16 b 0 = Returns lo /\ byteMaskuint16 b 1 = Returns hi /\
    0 <= lo < 256 /\ 0 <= hi < 256 /\ b = lo + 256 * hi /\
    uint16Byte b = [toByte lo; toByte hi].
Proof.
  intros Hb. exists (b mod 2 ^ 8), (b / 2 ^ 8).
  change (2 ^ 8) with 256.
  split; [apply byteMaskuint16_low, Hb|]. split; [apply byteMaskuint16_high, Hb|].
  pose proof (Z.mod_pos_bound b 256) as Hm. pose proof (Z.div_mod b 256) as Hd.
  assert (Hq : 0 <= b / 256 < 256)
    by (split; [apply Z.div_pos; lia | apply Z.div_lt_upper_bound; lia]).
  split; [lia|]. split; [exact Hq|]. split; [lia|].
  unfold uint16Byte. cbn [leEncode]. f_equal.
  unfold toByte. rewrite Z.mod_mod by lia. reflexivity.
Qed.

Lemma byteMaskuint16_bytes_witness :
  exists lo hi,
    byteMaskuint16 0xABCD 0 = Returns lo /\ byteMaskuint16 0xABCD 1 = Returns hi /\
    0 <= lo < 256 /\ 0 <= hi < 256 /\ 0xABCD = lo + 256 * hi /\
    uint16Byte 0xABCD = [toByte lo; toByte hi].
Proof.
  apply (byteMaskuint16_bytes 0xABCD). lia.
Defined.

(* ------------------------------------------------------------------ *)
(** ** ReadBytes in two steps *)

Lemma firstn_plus {A : Type} (a b : nat) :
  forall l : list A, firstn (a + b) l = firstn a l ++ firstn b (skipn a l).
Proof.
  induction a as [|a IH]; intros l; [reflexivity|].
  destruct l as [|x l]; [cbn; rewrite firstn_nil; reflexivity|].
  cbn [Nat.add firstn skipn app]. f_equal. apply IH.
Qed.

Lemma skipn_past {A : Type} (n m : nat) (l : list A) :
  (length l <= n)%nat -> (length l <= m)%nat -> skipn n l = skipn m l.
Proof.
  intros Hn Hm. rewrite !skipn_all2 by assumption. reflexivity.
Qed.

Lemma ReadBytes_closed_form (b : list byte) (offset num : Z) :
  0 <= offset -> 0 <= num -> offset + num < 2 ^ 63 ->
  ReadBytes b offset num
  = Returns (firstn (Z.to_nat num) (skipn (Z.to_nat offset) b),
             Z.min num (Z.max 0 (len b - offset))).
Proof.
  intros Ho Hn Hsum. pose proof (len_nonneg b) as Hb.
  assert (Hint : int (offset + num) = offset + num)
    by (apply int_id; unfold isInt; lia).
  unfold ReadBytes. rewrite Hint.
  destruct (len b <=? offset) eqn:E1.
  - apply Z.leb_le in E1. rewrite skipn_all2 by (unfold len in *; lia).
    rewrite firstn_nil. do 2 f_equal. lia.
  - apply Z.leb_gt in E1.
    destruct (len b <=? offset + num) eqn:E2.
    + apply Z.leb_le in E2. rewrite sliceFrom_ok by lia. cbn [bind].
      rewrite firstn_all2 by (rewrite length_skipn; unfold len in *; lia).
      do 2 f_equal. unfold len. rewrite length_skipn. unfold len in *. lia.
    + apply Z.leb_gt in E2. rewrite slice_ok by lia. cbn [bind].
      replace (offset + num - offset) with num by lia. do 2 f_equal. lia.
Qed.

(** Reading [num] bytes at [offset] with [ReadBytes] and then [num2] bytes
    at [offset] plus the count of the first read gives, one after the
    other, the bytes and the count of a single read of [num + num2] bytes at
    [offset]; the arguments are not negative and their sum does not
    overflow [int]. *)
Theorem ReadBytes_two_steps (b : list byte) (offset num num2 : Z) :
  0 <= offset -> 0 <= num -> 0 <= num2 -> offset + num + num2 < 2 ^ 63 ->
  exists out1 n1 out2 n2,
    ReadBytes b offset num = Returns (out1, n1) /\
    ReadBytes b (offset + n1) num2 = Returns (out2, n2) /\
    ReadBytes b offset (num + num2) = Returns (out1 ++ out2, n1 + n2).
Proof.
  intros Ho Hn Hn2 Hsum. pose proof (len_nonneg b) as Hb.
  set (n1 := Z.min num (Z.max 0 (len b - offset))).
  assert (Hn1 : 0 <= n1 <= num) by (unfold n1; lia).
  exists (firstn (Z.to_nat num) (skipn (Z.to_nat offset) b)), n1,
         (firstn (Z.to_nat num2) (skipn (Z.to_nat (offset + n1)) b)),
         (Z.min num2 (Z.max 0 (len b - (offset + n1)))).
  split; [apply ReadBytes_closed_form; lia|].
  split; [apply ReadBytes_closed_form; lia|].
  rewrite ReadBytes_closed_form by lia. f_equal. f_equal.
  - rewrite Z2Nat.inj_add by lia. rewrite firstn_plus. f_equal. f_equal.
    rewrite skipn_skipn.
    destruct (Z_le_gt_dec num (Z.max 0 (len b - offset))) as [Hle|Hgt].
    + f_equal. unfold n1. lia.
    + apply skipn_past; unfold n1, len in *; lia.
  - unfold n1. lia.
Qed.

Lemma ReadBytes_two_steps_witness :
  exists out1 n1 out2 n2,
    ReadBytes [x00; x01; x02; x03; x04] 1 2 = Returns (out1, n1) /\
    ReadBytes [x00; x01; x02; x03; x04] (1 + n1) 9 = Returns (out2, n2) /\
    ReadBytes [x00; x01; x02; x03; x04] 1 (2 + 9) = Returns (out1 ++ out2, n1 + n2).
Proof.
  apply (ReadBytes_two_steps [x00; x01; x02; x03; x04] 1 2 9); lia.
Defined.

(* ------------------------------------------------------------------ *)
(** ** readStringData on a field written with uint16Byte *)

Lemma codeUnits_widen (text : list byte) : codeUnits (widen text) = map byteZ text.
Proof.
  induction text as [|c text IH]; [reflexivity|].
  cbn [widen flat_map app codeUnits map]. f_equal; [|exact IH].
  change (byteZ x00) with 0. lia.
Qed.

Lemma len_widen (text : list byte) : len (widen text) = 2 * len text.
Proof.
  induction text as [|c text IH]; [reflexivity|].
  cbn [widen flat_map app]. rewrite !len_cons. unfold widen in IH. lia.
Qed.

Lemma stringOfRunes_low (text : list byte) :
  Forall (fun c => byteZ c < 0x80) text ->
  utf8.stringOfRunes (map byteZ text) = text.
Proof.
  induction 1 as [|c text Hc Htext IH]; [reflexivity|].
  unfold utf8.stringOfRunes in *. cbn [map flat_map].
  rewrite encoderune_ascii by lia. rewrite IH. reflexivity.
Qed.

(** A length-prefixed field written with [uint16Byte] is read back by
    [readStringData].  Without the double-byte flag: the length of the
    content, then the content, gives the content.  With the flag: the
    number of characters, then each character of a text of bytes below 0x80
    followed by a zero byte, gives the text.  In both cases there is no
    error and the input is left right after the field. *)
Theorem readStringData_written (alloc : allocator)
    (content text rest : list byte) :
  len content < 2 ^ 16 -> len text < 2 ^ 15 ->
  Forall (fun c => byteZ c < 0x80) text ->
  readStringData alloc (uint16Byte (len content) ++ content ++ rest) false
  = (Returns (content, None), rest) /\
  readStringData alloc (uint16Byte (len text) ++ widen text ++ rest) true
  = (Returns (text, None), rest).
Proof.
  intros Hc Ht Hlow.
  pose proof (len_nonneg content) as Hc0. pose proof (len_nonneg text) as Ht0.
  assert (Hlen : forall v, len (uint16Byte v) = 2)
    by (intros v; unfold len, uint16Byte; rewrite leEncode_length; reflexivity).
  assert (Hdec : forall v, 0 <= v < 2 ^ 16 -> leDecode (uint16Byte v) = v)
    by (intros v Hv; apply leDecode_leEncode; exact Hv).
  unfold readStringData, readStringDataBody, binary_Read. split.
  - rewrite ReadFull_exact by apply Hlen. rewrite Hdec by lia. unfold contentLen.
    rewrite make_small by lia.
    rewrite len_repeat_x00 by lia.
    rewrite ReadFull_exact by reflexivity. reflexivity.
  - rewrite ReadFull_exact by apply Hlen. rewrite Hdec by lia.
    rewrite contentLen_unicode. rewrite Z.mod_small by lia.
    rewrite make_small by lia.
    rewrite len_repeat_x00 by lia.
    rewrite ReadFull_exact by apply len_widen.
    rewrite int_id by (unfold isInt; lia).
    rewrite <- (len_widen text).
    rewrite (readStringDataLoop_spec _ (widen text) [] 0 []) by reflexivity.
    cbn [bind app]. rewrite codeUnits_widen, stringOfRunes_low by assumption.
    reflexivity.
Qed.

Lemma readStringData_written_witness :
  readStringData unlimited (uint16Byte (len [x41; x00; x42]) ++ [x41; x00; x42] ++ [xff]) false
  = (Returns ([x41; x00; x42], None), [xff]) /\
  readStringData unlimited (uint16Byte (len [x41; x42]) ++ widen [x41; x42] ++ [xff]) true
  = (Returns ([x41; x42], None), [xff]).
Proof.
  apply (readStringData_written unlimited [x41; x00; x42] [x41; x42] [xff]).
  - vm_compute. reflexivity.
  - vm_compute. reflexivity.
  - repeat constructor.
Defined.

(* ------------------------------------------------------------------ *)
(** ** readUnicodeString and an odd last byte *)

(** A byte that is not a continuation byte of UTF-8 (not in 0x80..0xBF),
    appended to a buffer, does not change the rune decoded at its start. *)
Lemma DecodeRune_non_continuation (p : list byte) (c : byte) :
  p <> [] -> byteZ c < 0x80 \/ 0xBF < byteZ c ->
  fst (utf8.DecodeRune (p ++ [c])) = fst (utf8.DecodeRune p).
Proof.
  intros Hp Hc.
  destruct p as [|c0 p]; [congruence|]. clear Hp.
  cbn [app]. unfold utf8.DecodeRune, utf8.first, utf8.locb, utf8.hicb.
  decode_cases c0; eval_closed; try reflexivity.
  all: destruct p as [|c1 p]; cbn [app]; eval_closed;
    [split_ifs; try reflexivity; exfalso; cmp_props; lia|].
  all: destruct p as [|c2 p]; cbn [app]; eval_closed;
    [split_ifs; try reflexivity; exfalso; cmp_props; lia|].
  all: destruct p as [|c3 p]; cbn [app]; eval_closed;
    [split_ifs; try reflexivity; exfalso; cmp_props; lia|].
  all: rewrite ?len_cons, ?len_app; change (len [c]) with 1;
    pose proof (len_nonneg p).
  all: split_ifs; try reflexivity; exfalso; cmp_props; lia.
Qed.

Lemma unicodeRunes_trailing_same (data : list byte) (c : byte) :
  Nat.even (length data) = true -> byteZ c < 0x80 \/ 0xBF < byteZ c ->
  unicodeRunes (data ++ [c]) = unicodeRunes data.
Proof.
  intros Heven Hc. revert Heven.
  induction data as [| a | a b l IH] using list_pair_ind; intros Heven.
  - reflexivity.
  - discriminate Heven.
  - cbn [app unicodeRunes].
    destruct (Byte.eqb a x00 && Byte.eqb b x00); [reflexivity|].
    rewrite IH by exact Heven. f_equal.
    change (a :: b :: l ++ [c]) with ((a :: b :: l) ++ [c]).
    apply DecodeRune_non_continuation; [discriminate|exact Hc].
Qed.

(** A last byte without a partner, after a buffer of even length.  The loop
    of [readUnicodeString] collects as many runes with the byte as without
    it, so the byte makes no code point of its own.  When the byte is not a
    continuation byte of UTF-8 (it is not in 0x80..0xBF), the string
    [readUnicodeString] returns is the same with and without it. *)
Theorem readUnicodeString_odd_trailing_byte (data : list byte) (c : byte) :
  Nat.even (length data) = true ->
  (exists runes runes',
      readUnicodeStringLoop (data ++ [c])
        (Z.to_nat (Z.quot (len (data ++ [c])) 2)) 0 [] = Returns runes /\
      readUnicodeStringLoop data (Z.to_nat (Z.quot (len data) 2)) 0 [] = Returns runes' /\
      length runes = length runes') /\
  (byteZ c < 0x80 \/ 0xBF < byteZ c ->
   readUnicodeString (data ++ [c]) = readUnicodeString data).
Proof.
  intros Heven. split.
  - exists (unicodeRunes (data ++ [c])), (unicodeRunes data).
    split; [apply (readUnicodeStringLoop_spec _ (data ++ [c]) [] 0 []); reflexivity|].
    split; [apply (readUnicodeStringLoop_spec _ data [] 0 []); reflexivity|].
    apply unicodeRunes_trailing_length. exact Heven.
  - intros Hc. rewrite !readUnicodeString_runes.
    rewrite unicodeRunes_trailing_same by assumption. reflexivity.
Qed.

Lemma readUnicodeString_odd_trailing_byte_witness :
  (exists runes runes',
      readUnicodeStringLoop ([xe2; x82] ++ [x43])
        (Z.to_nat (Z.quot (len ([xe2; x82] ++ [x43])) 2)) 0 [] = Returns runes /\
      readUnicodeStringLoop [xe2; x82] (Z.to_nat (Z.quot (len [xe2; x82]) 2)) 0 []
      = Returns runes' /\
      length runes = length runes') /\
  (byteZ x43 < 0x80 \/ 0xBF < byteZ x43 ->
   readUnicodeString ([xe2; x82] ++ [x43]) = readUnicodeString [xe2; x82]).
Proof.
  apply (readUnicodeString_odd_trailing_byte [xe2; x82] x43). reflexivity.
Defined.

(* ------------------------------------------------------------------ *)
(** ** readSection when the memory runs out *)

(** The payload buffer is allocated from the declared size alone, before a
    byte of the payload is read.  When the size field is read, the payload
    size is within the ceiling and the allocation limit, and the runtime has
    no memory for a buffer of that size, [readSection] returns nothing: the
    program stops with the fatal error "out of memory", whatever follows the
    size field in the input, and nothing after the size field has been
    read. *)
Theorem readSection_out_of_memory (alloc : allocator) (sSize maxSize : Z)
    (prefix rest : list byte) :
  prefixWidth sSize -> len prefix = sSize ->
  sSize <= leDecode prefix ->
  leDecode prefix - sSize <= maxSize ->
  leDecode prefix - sSize <= maxAlloc ->
  granted alloc (leDecode prefix - sSize) = false ->
  readSection alloc (prefix ++ rest) sSize maxSize = (Aborts OutOfMemory, rest).
Proof.
  intros Hw Hlen Hge Hmax Halloc Hrefused.
  assert (Hc : computedSize (leDecode prefix) sSize = leDecode prefix - sSize).
  { apply computedSize_no_underflow; try assumption.
    apply leDecode_uint64. unfold prefixWidth in Hw. lia. }
  rewrite readSection_after_size by assumption. cbv zeta. rewrite Hc.
  zb_false (maxSize <? leDecode prefix - sSize).
  rewrite make_out_of_memory by (assumption || lia). reflexivity.
Qed.

Lemma readSection_out_of_memory_witness :
  readSection (limited (2 ^ 32))
    ([x08; x00; x00; x00; x00; x00; x01; x00] ++ [x01; x02; x03]) 8 (2 ^ 64 - 1)
  = (Aborts OutOfMemory, [x01; x02; x03]).
Proof.
  apply (readSection_out_of_memory (limited (2 ^ 32)) 8 (2 ^ 64 - 1)
           [x08; x00; x00; x00; x00; x00; x01; x00] [x01; x02; x03]).
  - right. right. reflexivity.
  - reflexivity.
  - vm_compute. discriminate.
  - vm_compute. discriminate.
  - vm_compute. discriminate.
  - vm_compute. reflexivity.
Defined.
